(** * Linggango Russian translation scripts: sentence-case normalizer and tree merger

    A shallow embedding of [scripts/fix_capitalization.py] and
    [scripts/sync_translations.py].

    - A Python [str] is a sequence of Unicode code points: [list char] with
      [char := N].
    - Indices are Python integers ([Z]); [text[i]] is [getitem], which raises
      [IndexError] outside the range.
    - A computation either returns, raises, or (for the fuelled loops of the
      model only) runs out of fuel: the type [outcome].
    - A JSON document is the tagged union [json]; a Python [dict] is an
      insertion-ordered association list whose keys are pairwise distinct
      ([wf]).
*)

From Stdlib Require Import List NArith ZArith Bool Lia.
Import ListNotations.

Local Open Scope Z_scope.

Set Warnings "-register-all".

(* ================================================================== *)
(** ** Outcomes of a computation *)

Inductive outcome (A : Type) : Type :=
| Returns (a : A)      (* normal return *)
| Raises               (* a Python exception escaped *)
| Timeout.             (* the fuel of the model ran out *)

Arguments Returns {A} a.
Arguments Raises {A}.
Arguments Timeout {A}.

Definition bind {A B : Type} (m : outcome A) (k : A -> outcome B) : outcome B :=
  match m with
  | Returns a => k a
  | Raises => Raises
  | Timeout => Timeout
  end.

Declare Scope outcome_scope.
Delimit Scope outcome_scope with outcome.
Notation "x <- m ;; k" := (bind m (fun x => k))
  (at level 61, m at next level, right associativity) : outcome_scope.
Local Open Scope outcome_scope.

(* ================================================================== *)
(** ** Strings and characters *)

Definition char : Type := N.
Definition str : Type := list char.

Definition len {A : Type} (l : list A) : Z := Z.of_nat (length l).

(** Python's [l[i]]: negative indices count from the end, anything outside
    the list raises. *)
Definition getitem {A : Type} (l : list A) (i : Z) : outcome A :=
  let idx := if i <? 0 then len l + i else i in
  if (idx <? 0) || (len l <=? idx) then Raises
  else match nth_error l (Z.to_nat idx) with
       | Some a => Returns a
       | None => Raises
       end.

(** [c in s] for a one-character [c]. *)
Definition in_chars (c : char) (s : str) : bool := existsb (N.eqb c) s.

Definition str_eqb (a b : str) : bool :=
  if list_eq_dec N.eq_dec a b then true else false.

Definition section_sign : char := 167%N.   (* '§' *)
Definition newline : char := 10%N.         (* '\n' *)
Definition terminators : str := [46; 33; 63]%N.          (* '.!?' *)
Definition blanks : str := [32; 9]%N.                    (* ' \t' *)
Definition blanks_or_terminators : str := [32; 9; 46; 33; 63]%N.  (* ' \t.!?' *)
Definition blanks_or_newline : str := [32; 9; 10]%N.     (* ' \t\n' *)

(** The letters of [RUSSIAN_UPPER] and [RUSSIAN_LOWER], in the order of the
    source literals (the letter io sits after ie). *)
Definition RUSSIAN_UPPER : str :=
  [1040; 1041; 1042; 1043; 1044; 1045; 1025; 1046; 1047; 1048; 1049;
   1050; 1051; 1052; 1053; 1054; 1055; 1056; 1057; 1058; 1059; 1060;
   1061; 1062; 1063; 1064; 1065; 1066; 1067; 1068; 1069; 1070; 1071]%N.

Definition RUSSIAN_LOWER : str :=
  [1072; 1073; 1074; 1075; 1076; 1077; 1105; 1078; 1079; 1080; 1081;
   1082; 1083; 1084; 1085; 1086; 1087; 1088; 1089; 1090; 1091; 1092;
   1093; 1094; 1095; 1096; 1097; 1098; 1099; 1100; 1101; 1102; 1103]%N.

Definition RUSSIAN_ALL : str := RUSSIAN_UPPER ++ RUSSIAN_LOWER.

(** [RUSSIAN_RE = re.compile(r'[а-яА-ЯёЁ]')]: one character of the class. *)
Definition russian_class (c : char) : bool :=
  ((1072 <=? c) && (c <=? 1103) || (1040 <=? c) && (c <=? 1071)
   || (c =? 1105) || (c =? 1025))%N.

(** [bool(RUSSIAN_RE.search(text))]. *)
Definition has_russian (text : str) : bool := existsb russian_class text.

(** [c.upper()] and [c.lower()] on the letters the normalizer applies them
    to, the members of [RUSSIAN_ALL]: both return a one-character string. *)
Definition upper (c : char) : char :=
  (if c =? 1105 then 1025
   else if (1072 <=? c) && (c <=? 1103) then c - 32
   else c)%N.

Definition lower (c : char) : char :=
  (if c =? 1025 then 1105
   else if (1040 <=? c) && (c <=? 1071) then c + 32
   else c)%N.

(* ================================================================== *)
(** ** The sentence-case normalizer, [fix_sentence_case] *)

(** The three variables of the [while] loop. *)
Record state : Type := mkState {
  pos : Z;                       (* i *)
  at_sentence_start : bool;
  result : list char
}.

(** [while j < n and text[j] in ' \t': j += 1], returning the final [j]. *)
Fixpoint skip_blanks (fuel : nat) (text : str) (j : Z) : outcome Z :=
  if j <? len text then
    tj <- getitem text j ;;
    if in_chars tj blanks then
      match fuel with
      | O => Timeout
      | S fuel' => skip_blanks fuel' text (j + 1)
      end
    else Returns j
  else Returns j.

(** The forward scan of lines 96-102, returning [word_has_lower_russian]:
    [while j < n and text[j] not in ' \t\n': if text[j] in RUSSIAN_LOWER:
     found, break; j += 1]. *)
Fixpoint scan_word (fuel : nat) (text : str) (j : Z) : outcome bool :=
  if j <? len text then
    tj <- getitem text j ;;
    if negb (in_chars tj blanks_or_newline) then
      if in_chars tj RUSSIAN_LOWER then Returns true
      else match fuel with
           | O => Timeout
           | S fuel' => scan_word fuel' text (j + 1)
           end
    else Returns false
  else Returns false.

(** [str.isalpha] on the ASCII range, where it holds of the Latin letters
    only: the instance the concrete examples run with. *)
Definition ascii_letter (c : char) : bool :=
  ((65 <=? c) && (c <=? 90) || (97 <=? c) && (c <=? 122))%N.

(** ASCII whitespace ([str.isspace] on the ASCII range) and ASCII
    punctuation ([string.punctuation]): the everyday meaning of the two
    words. *)
Definition whitespace (c : char) : bool :=
  in_chars c [32; 9; 10; 11; 12; 13]%N.

Definition punctuation (c : char) : bool :=
  ((33 <=? c) && (c <=? 47) || (58 <=? c) && (c <=? 64)
   || (91 <=? c) && (c <=? 96) || (123 <=? c) && (c <=? 126))%N.

Section Scripts.

(** [str.isalpha] on one character: the Unicode table behind it is not part
    of the repository. *)
Variable isalpha : char -> bool.

(** The numeric leaves of a JSON document (Python [int] and [float]); no
    function of either script looks inside one. *)
Variable number : Type.

(** The look-back of lines 69-77 on the output [result], whose last element
    is the punctuation just appended: the new value of [at_sentence_start]. *)
Definition look_back (result : list char) (start : bool) : outcome bool :=
  let k := len result - 2 in
  is_letter <- (if k >=? 0 then
                  rk <- getitem result k ;; Returns (in_chars rk RUSSIAN_ALL)
                else Returns false) ;;
  if is_letter then
    before_k <- (if k >? 0 then
                   b <- getitem result (k - 1) ;; Returns (Some b)
                 else Returns None) ;;
    match before_k with
    | None => Returns start
    | Some b => if in_chars b blanks_or_terminators then Returns start
                else Returns true
    end
  else Returns true.

(** One iteration of the body of [while i < n]. *)
Definition step (text : str) (st : state) : outcome state :=
  let n := len text in
  let i := pos st in
  c <- getitem text i ;;
  if (c =? section_sign)%N && (i + 1 <? n) then
    d <- getitem text (i + 1) ;;
    Returns (mkState (i + 2) (at_sentence_start st) (result st ++ [c; d]))
  else if (c =? newline)%N then
    Returns (mkState (i + 1) true (result st ++ [c]))
  else if in_chars c terminators then
    let result' := result st ++ [c] in
    let i' := i + 1 in
    j <- skip_blanks (length text) text i' ;;
    if j >? i' then
      start' <- look_back result' (at_sentence_start st) ;;
      Returns (mkState i' start' result')
    else Returns (mkState i' (at_sentence_start st) result')
  else if in_chars c blanks then
    Returns (mkState (i + 1) (at_sentence_start st) (result st ++ [c]))
  else if in_chars c RUSSIAN_ALL then
    if at_sentence_start st then
      Returns (mkState (i + 1) false (result st ++ [upper c]))
    else if in_chars c RUSSIAN_UPPER then
      word_has_lower_russian <- scan_word (length text) text (i + 1) ;;
      Returns (mkState (i + 1) false
                 (result st ++ [if word_has_lower_russian then lower c else c]))
    else
      Returns (mkState (i + 1) false (result st ++ [c]))
  else if isalpha c then
    Returns (mkState (i + 1) false (result st ++ [c]))
  else
    Returns (mkState (i + 1) (at_sentence_start st) (result st ++ [c])).

(** [while i < n: body]; one unit of fuel per iteration. *)
Fixpoint loop (fuel : nat) (text : str) (st : state) : outcome (list char) :=
  if pos st <? len text then
    match fuel with
    | O => Timeout
    | S fuel' => st' <- step text st ;; loop fuel' text st'
    end
  else Returns (result st).

Definition initial : state := mkState 0 true [].

(** [fix_sentence_case(text)]; [''.join(result)] is the list itself. The loop
    gets [len(text)] units of fuel. *)
Definition fix_sentence_case (text : str) : outcome str :=
  if negb (has_russian text) then Returns text
  else loop (length text) text initial.


(* ------------------------------------------------------------------ *)
(** *** The scan as a function of the remaining text

    [scan result start rest] is what the loop appends to [result] when the
    unread part of the text is [rest]; [loop_scan] below proves it. *)

Definition followed_by_blank (rest : str) : bool :=
  match rest with
  | h :: _ => in_chars h blanks
  | [] => false
  end.

Fixpoint word_has_lower (rest : str) : bool :=
  match rest with
  | [] => false
  | c :: rest' =>
      if in_chars c blanks_or_newline then false
      else if in_chars c RUSSIAN_LOWER then true
      else word_has_lower rest'
  end.

(** The value [look_back] returns (it never raises, [look_back_returns]). *)
Definition boundary_flag (result : list char) (start : bool) : bool :=
  match look_back result start with
  | Returns b => b
  | _ => true
  end.

(** The character emitted for [c] and the sentence state after it, for every
    branch of the loop body but the format-code pair. *)
Definition emit (result : list char) (start : bool) (c : char) (rest : str)
  : char * bool :=
  if (c =? newline)%N then (c, true)
  else if in_chars c terminators then
    (c, if followed_by_blank rest then boundary_flag (result ++ [c]) start
        else start)
  else if in_chars c blanks then (c, start)
  else if in_chars c RUSSIAN_ALL then
    if start then (upper c, false)
    else if in_chars c RUSSIAN_UPPER then
      (if word_has_lower rest then lower c else c, false)
    else (c, false)
  else if isalpha c then (c, false)
  else (c, start).

Fixpoint scan (result : list char) (start : bool) (rest : str) {struct rest}
  : str :=
  match rest with
  | [] => []
  | c :: rest1 =>
      match rest1 with
      | d :: rest2 =>
          if (c =? section_sign)%N then
            c :: d :: scan (result ++ [c; d]) start rest2
          else
            let (c', start') := emit result start c rest1 in
            c' :: scan (result ++ [c']) start' rest1
      | [] =>
          let (c', start') := emit result start c rest1 in
          c' :: scan (result ++ [c']) start' rest1
      end
  end.

Definition normalize_string (text : str) : str :=
  if has_russian text then scan [] true text else text.

(* ================================================================== *)
(** ** JSON documents *)

Inductive json : Type :=
| JNull
| JBool (b : bool)
| JNum (x : number)
| JStr (s : str)
| JArr (items : list json)
| JObj (entries : list (str * json)).

(** A [dict]: its entries in insertion order. *)
Definition dict : Type := list (str * json).

Definition keys (d : dict) : list str := map fst d.

(** [d[key]] when [key in d]. *)
Fixpoint dict_get (key : str) (d : dict) : option json :=
  match d with
  | [] => None
  | (k, v) :: d' => if str_eqb key k then Some v else dict_get key d'
  end.

(** [d[key] = value]: an existing key keeps its place, a new one goes last. *)
Fixpoint dict_set (key : str) (value : json) (d : dict) : dict :=
  match d with
  | [] => [(key, value)]
  | (k, v) :: d' =>
      if str_eqb key k then (k, value) :: d'
      else (k, v) :: dict_set key value d'
  end.

Fixpoint distinct (l : list str) : bool :=
  match l with
  | [] => true
  | k :: l' => negb (existsb (str_eqb k) l') && distinct l'
  end.

(** The values Python can hold: the keys of every [dict] are distinct. *)
Fixpoint wf (v : json) : bool :=
  match v with
  | JArr items => forallb wf items
  | JObj entries =>
      distinct (map fst entries)
      && forallb (fun kv => wf (snd kv)) entries
  | _ => true
  end.

(* ================================================================== *)
(** ** [fix_value] *)

(** [{k: f(v) for k, v in obj.items()}], filling [result] entry by entry. *)
Definition dict_comprehension (f : json -> outcome json)
  : dict -> dict -> outcome dict :=
  fix comprehension (items result : dict) {struct items} : outcome dict :=
    match items with
    | [] => Returns result
    | (k, v) :: items' =>
        v' <- f v ;;
        comprehension items' (dict_set k v' result)
    end.

(** [[f(item) for item in obj]]. *)
Definition list_comprehension (f : json -> outcome json)
  : list json -> outcome (list json) :=
  fix comprehension (items : list json) {struct items} : outcome (list json) :=
    match items with
    | [] => Returns []
    | item :: items' =>
        x <- f item ;;
        xs <- comprehension items' ;;
        Returns (x :: xs)
    end.

Fixpoint fix_value (obj : json) : outcome json :=
  match obj with
  | JStr s => s' <- fix_sentence_case s ;; Returns (JStr s')
  | JObj entries =>
      d <- dict_comprehension fix_value entries [] ;; Returns (JObj d)
  | JArr items =>
      l <- list_comprehension fix_value items ;; Returns (JArr l)
  | _ => Returns obj
  end.

(** The document [fix_value] returns (see [fix_value_normalize]). *)
Fixpoint normalize (d : json) : json :=
  match d with
  | JStr s => JStr (normalize_string s)
  | JObj entries => JObj (map (fun kv => (fst kv, normalize (snd kv))) entries)
  | JArr items => JArr (map normalize items)
  | _ => d
  end.

(* ================================================================== *)
(** ** [merge_recursive] *)

(** The [dict] branch, lines 32-40. [for key in artifact] visits the entries
    of [artifact] in order, and [artifact[key]] is the value of the entry
    visited, the keys of a [dict] being distinct; [dict_get key resource] is
    [key in resource] together with [resource[key]]. *)
Definition merge_dicts (merge : json -> json -> json) (resource : dict)
  : dict -> dict -> dict :=
  fix each_key (items result : dict) {struct items} : dict :=
    match items with
    | [] => result
    | (key, value) :: items' =>
        each_key items'
          (dict_set key
             match dict_get key resource with
             | Some existing => merge value existing
             | None => value          (* missing from resourcepacks *)
             end
             result)
    end.

(** The [list] branch, lines 45-52, running over both lists at once: index
    [i] is in range of a list as long as that list has not run out, and the
    indices past the end of [artifact] append nothing. *)
Definition merge_lists (merge : json -> json -> json)
  : list json -> list json -> list json :=
  fix each_index (artifact resource : list json) {struct artifact}
    : list json :=
    match artifact, resource with
    | x :: artifact', y :: resource' =>
        merge x y :: each_index artifact' resource'
    | x :: artifact', [] => x :: each_index artifact' []
    | [], _ => []
    end.

Fixpoint merge_recursive (artifact resource : json) {struct artifact} : json :=
  match artifact, resource with
  | JObj a, JObj r => JObj (merge_dicts merge_recursive r a [])
  | JArr a, JArr r => JArr (merge_lists merge_recursive a r)
  | JStr s, _ =>
      if has_russian s then artifact
      else match resource with
           | JStr _ => resource    (* keep the existing value *)
           | _ => artifact
           end
  | _, _ => artifact
  end.

(** What the [dict] branch stores under [key] for the incoming [value]. *)
Definition merged_value (resource : dict) (key : str) (value : json) : json :=
  match dict_get key resource with
  | Some existing => merge_recursive value existing
  | None => value
  end.

(* ================================================================== *)
(** ** Vocabulary of the properties *)

(** The six runtime types the two scripts tell apart with [isinstance]. *)
Inductive kind : Type := KNull | KBool | KNum | KStr | KArr | KObj.

Definition kind_of (v : json) : kind :=
  match v with
  | JNull => KNull
  | JBool _ => KBool
  | JNum _ => KNum
  | JStr _ => KStr
  | JArr _ => KArr
  | JObj _ => KObj
  end.

(** [same_shape d d']: the same keys in the same order at every mapping, the
    same length at every sequence, equal leaves except that a string may
    stand where a string stood. *)
Inductive same_shape : json -> json -> Prop :=
| shape_null : same_shape JNull JNull
| shape_bool b : same_shape (JBool b) (JBool b)
| shape_num x : same_shape (JNum x) (JNum x)
| shape_str s s' : same_shape (JStr s) (JStr s')
| shape_arr l l' :
    Forall2 same_shape l l' -> same_shape (JArr l) (JArr l')
| shape_obj d d' :
    Forall2 (fun kv kv' => fst kv = fst kv' /\ same_shape (snd kv) (snd kv'))
      d d' ->
    same_shape (JObj d) (JObj d').

(** [same_keys i m]: at every path, [m] holds a mapping exactly where [i]
    does, with the keys of [i] in the order of [i]; sequences keep their
    length; a leaf of [i] faces a leaf. *)
Inductive same_keys : json -> json -> Prop :=
| keys_leaf i m :
    kind_of i <> KArr -> kind_of i <> KObj ->
    kind_of m <> KArr -> kind_of m <> KObj ->
    same_keys i m
| keys_arr l l' :
    Forall2 same_keys l l' -> same_keys (JArr l) (JArr l')
| keys_obj d d' :
    Forall2 (fun kv kv' => fst kv = fst kv' /\ same_keys (snd kv) (snd kv'))
      d d' ->
    same_keys (JObj d) (JObj d').

(** [n] iterations of the loop body from [st]. *)
Fixpoint run (n : nat) (text : str) (st : state) : outcome state :=
  match n with
  | O => Returns st
  | S n' => st' <- step text st ;; run n' text st'
  end.

(** The output emitted so far ends in a lone letter: its last character is
    a letter of the alphabet, and the character before that one, when
    there is one, satisfies [before]. *)
Definition lone_letter (before : char -> bool) (out : list char) : bool :=
  match rev out with
  | [] => false
  | [l] => in_chars l RUSSIAN_ALL
  | l :: b :: _ => in_chars l RUSSIAN_ALL && before b
  end.

(** The sentence-boundary rule, for a class [before] of characters that
    may precede the lone letter of an abbreviation: at a sentence-ending
    punctuation character followed by a space or a tab, the loop sets
    [at_sentence_start] unless the output ends in a lone letter. *)
Definition boundary_rule (before : char -> bool) (text : str) (st : state)
  : Prop :=
  forall c h,
    getitem text (pos st) = Returns c ->
    in_chars c terminators = true ->
    getitem text (pos st + 1) = Returns h ->
    in_chars h blanks = true ->
    step text st
    = Returns (mkState (pos st + 1)
                 (if lone_letter before (result st)
                  then at_sentence_start st else true)
                 (result st ++ [c])).

(** The loop declares a sentence boundary after the character at index
    [p]: whenever it has moved on to index [p + 1], [at_sentence_start] is
    set. *)
Definition boundary_declared (text : str) (p : Z) : Prop :=
  forall n st,
    run n text initial = Returns st ->
    pos st = p + 1 ->
    at_sentence_start st = true.

(** The character before the lone letter, as line 72 tests it. *)
Definition space_or_terminator (b : char) : bool :=
  in_chars b blanks_or_terminators.

(** The same, with the two words in their everyday meaning. *)
Definition whitespace_or_punctuation (b : char) : bool :=
  whitespace b || punctuation b.

(** The lowering rule for an uppercase letter away from a sentence start,
    for a test [has_lower] of the text before and after the letter. *)
Definition case_rule (has_lower : str -> str -> bool) (text : str) (st : state)
  : Prop :=
  forall pre c rest,
    text = pre ++ c :: rest ->
    pos st = len pre ->
    in_chars c RUSSIAN_UPPER = true ->
    at_sentence_start st = false ->
    step text st
    = Returns (mkState (pos st + 1) false
                 (result st ++ [if has_lower pre rest then lower c else c])).

(** A lowercase letter between the letter and the next space, tab, newline
    or the end of the text. *)
Definition lower_after (pre rest : str) : bool := word_has_lower rest.

(** A lowercase letter anywhere in the maximal run of characters other than
    space, tab and newline around the letter. *)
Definition lower_in_span (pre rest : str) : bool :=
  word_has_lower (rev pre) || word_has_lower rest.

(** A format-code pair between [pre] and [post] is inert when the other
    characters come out as they do without the pair. *)
Definition pair_inert (pre : str) (d : char) (post : str) : Prop :=
  exists out,
    fix_sentence_case (pre ++ post) = Returns out
    /\ fix_sentence_case (pre ++ section_sign :: d :: post)
       = Returns (firstn (length pre) out
                    ++ section_sign :: d :: skipn (length pre) out).

(** The string holds a letter of the alphabet. *)
Definition contains_letter (s : str) : Prop :=
  exists c, In c s /\ in_chars c RUSSIAN_ALL = true.

(** [c'] is [c] or, for a letter of the alphabet, one of its two cases. *)
Definition case_variant (c c' : char) : Prop :=
  c' = c
  \/ (in_chars c RUSSIAN_ALL = true /\ (c' = upper c \/ c' = lower c)).

(** The loop reads [c] as a letter, of the alphabet (line 87) or of another
    script (line 113), and clears [at_sentence_start]. *)
Definition reads_as_letter (c : char) : bool :=
  negb (c =? newline)%N && negb (in_chars c terminators)
  && negb (in_chars c blanks)
  && (in_chars c RUSSIAN_ALL || isalpha c).

(** A character that is neither the lead-in marker nor read as a letter. *)
Definition neutral (c : char) : bool :=
  negb (c =? section_sign)%N && negb (reads_as_letter c).

Definition is_section_sign (c : char) : bool := (c =? section_sign)%N.

(** Every string leaf of the document satisfies [p]. *)
Fixpoint strings_all (p : str -> bool) (v : json) : bool :=
  match v with
  | JStr s => p s
  | JArr items => forallb (strings_all p) items
  | JObj entries => forallb (fun kv => strings_all p (snd kv)) entries
  | _ => true
  end.

Definition untranslated (s : str) : bool := negb (has_russian s).

(* ================================================================== *)
(** * Properties *)

(** ** Indexing *)

Lemma len_app {A : Type} (l1 l2 : list A) : len (l1 ++ l2) = len l1 + len l2.
Proof. unfold len. rewrite length_app. lia. Qed.

Lemma len_cons {A : Type} (a : A) (l : list A) : len (a :: l) = 1 + len l.
Proof. unfold len. cbn [length]. lia. Qed.

Lemma len_nonneg {A : Type} (l : list A) : 0 <= len l.
Proof. unfold len. lia. Qed.

Lemma getitem_middle {A : Type} (pre : list A) (c : A) (rest : list A) :
  getitem (pre ++ c :: rest) (len pre) = Returns c.
Proof.
  unfold getitem. pose proof (len_nonneg pre) as Hp. pose proof (len_nonneg rest).
  destruct (Z.ltb_spec (len pre) 0) as [Hneg | _]; [lia |].
  rewrite len_app, len_cons.
  destruct (Z.ltb_spec (len pre) 0); [lia |].
  destruct (Z.leb_spec (len pre + (1 + len rest)) (len pre)); [lia |].
  cbn [orb]. unfold len. rewrite Nat2Z.id.
  rewrite nth_error_app2 by lia. rewrite Nat.sub_diag. reflexivity.
Qed.

Lemma getitem_snoc_index {A : Type} (pre : list A) (c : A) (rest : list A) (i : Z) :
  i = len pre -> getitem (pre ++ c :: rest) i = Returns c.
Proof. intros ->. apply getitem_middle. Qed.

Lemma app_cons_assoc {A : Type} (pre : list A) (c : A) (rest : list A) :
  pre ++ c :: rest = (pre ++ [c]) ++ rest.
Proof. rewrite <- app_assoc. reflexivity. Qed.

(** Inside its range, indexing never raises. *)
Lemma getitem_in_range {A : Type} (l : list A) (i : Z) :
  0 <= i < len l -> exists a, getitem l i = Returns a.
Proof.
  intros Hi. unfold getitem.
  destruct (Z.ltb_spec i 0); [lia |].
  destruct (Z.ltb_spec i 0); [lia |].
  destruct (Z.leb_spec (len l) i); [lia |]. cbn [orb].
  destruct (nth_error l (Z.to_nat i)) eqn:E; [eauto |].
  apply nth_error_None in E. unfold len in *. lia.
Qed.

(** ** The inner loops *)

Lemma skip_blanks_scan (rest pre : str) (fuel : nat) :
  (length rest <= fuel)%nat ->
  exists j, skip_blanks fuel (pre ++ rest) (len pre) = Returns j
            /\ (j >? len pre) = followed_by_blank rest.
Proof.
  assert (G : forall (rest pre : str) (fuel : nat),
             (length rest <= fuel)%nat ->
             exists j, skip_blanks fuel (pre ++ rest) (len pre) = Returns j
                       /\ len pre <= j
                       /\ (rest = [] \/ (exists h t, rest = h :: t
                             /\ (len pre < j <-> in_chars h blanks = true)))).
  { clear. induction rest as [| h t IH]; intros pre fuel Hf.
    - exists (len pre). rewrite app_nil_r.
      destruct fuel; cbn [skip_blanks]; rewrite Z.ltb_irrefl; auto with zarith.
    - assert (E : skip_blanks fuel (pre ++ h :: t) (len pre)
                  = if in_chars h blanks
                    then match fuel with
                         | O => Timeout
                         | S f => skip_blanks f (pre ++ h :: t) (len pre + 1)
                         end
                    else Returns (len pre)).
      { pose proof (len_nonneg t).
        destruct fuel; cbn [skip_blanks]; rewrite getitem_middle;
          rewrite len_app, len_cons;
          (destruct (Z.ltb_spec (len pre) (len pre + (1 + len t))); [| lia]);
          reflexivity. }
      rewrite E. destruct (in_chars h blanks) eqn:Hh.
      + destruct fuel as [| f]; [cbn [length] in Hf; lia |].
        rewrite app_cons_assoc.
        replace (len pre + 1) with (len (pre ++ [h]))
          by (rewrite len_app; reflexivity).
        destruct (IH (pre ++ [h]) f) as (j & Hj & Hle & _);
          [cbn [length] in Hf; lia |].
        exists j. rewrite len_app in Hle. change (len [h]) with 1 in Hle.
        split; [exact Hj |]. split; [lia |]. right. exists h, t.
        split; [reflexivity |]. split; [auto | lia].
      + exists (len pre). split; [reflexivity |]. split; [lia |].
        right. exists h, t. split; [reflexivity |].
        split; [lia | congruence]. }
  intros Hf. destruct (G rest pre fuel Hf) as (j & Hj & Hle & Hrest).
  exists j. split; [exact Hj |].
  destruct Hrest as [-> | (h & t & -> & Hiff)]; cbn [followed_by_blank].
  - rewrite app_nil_r in Hj.
    destruct fuel; cbn [skip_blanks] in Hj; rewrite Z.ltb_irrefl in Hj;
      injection Hj as <-; rewrite Z.gtb_ltb; apply Z.ltb_irrefl.
  - rewrite Z.gtb_ltb. destruct (Z.ltb_spec (len pre) j) as [Hlt | Hge].
    + symmetry. apply Hiff. exact Hlt.
    + destruct (in_chars h blanks); [| reflexivity].
      assert (len pre < j) by (apply Hiff; reflexivity). lia.
Qed.

Lemma scan_word_scan (rest pre : str) (fuel : nat) :
  (length rest <= fuel)%nat ->
  scan_word fuel (pre ++ rest) (len pre) = Returns (word_has_lower rest).
Proof.
  revert pre fuel. induction rest as [| h t IH]; intros pre fuel Hf.
  - rewrite app_nil_r.
    destruct fuel; cbn [scan_word]; rewrite Z.ltb_irrefl; reflexivity.
  - assert (E : scan_word fuel (pre ++ h :: t) (len pre)
                = if negb (in_chars h blanks_or_newline)
                  then if in_chars h RUSSIAN_LOWER then Returns true
                       else match fuel with
                            | O => Timeout
                            | S f => scan_word f (pre ++ h :: t) (len pre + 1)
                            end
                  else Returns false).
    { pose proof (len_nonneg t).
      destruct fuel; cbn [scan_word]; rewrite getitem_middle;
        rewrite len_app, len_cons;
        (destruct (Z.ltb_spec (len pre) (len pre + (1 + len t))); [| lia]);
        reflexivity. }
    rewrite E. cbn [word_has_lower].
    destruct (in_chars h blanks_or_newline); cbn [negb]; [reflexivity |].
    destruct (in_chars h RUSSIAN_LOWER); [reflexivity |].
    destruct fuel as [| f]; [cbn [length] in Hf; lia |].
    rewrite app_cons_assoc.
    replace (len pre + 1) with (len (pre ++ [h]))
      by (rewrite len_app; reflexivity).
    apply IH. cbn [length] in Hf. lia.
Qed.

Lemma look_back_returns (res : list char) (start : bool) :
  look_back res start = Returns (boundary_flag res start).
Proof.
  unfold boundary_flag.
  assert (G : exists b, look_back res start = Returns b);
    [| destruct G as [b ->]; reflexivity].
  unfold look_back.
  destruct (Z.geb_spec (len res - 2) 0) as [Hk | Hk]; cbn [bind];
    [| eauto].
  destruct (getitem_in_range res (len res - 2)) as [rk ->]; [lia |].
  cbn [bind]. destruct (in_chars rk RUSSIAN_ALL); [| eauto].
  destruct (Z.gtb_spec (len res - 2) 0) as [Hk' | Hk']; cbn [bind].
  - destruct (getitem_in_range res (len res - 2 - 1)) as [b ->]; [lia |].
    cbn [bind]. destruct (in_chars b blanks_or_terminators); eauto.
  - eauto.
Qed.

(** ** The loop body and the scan *)

Lemma step_pair (pre : str) (d : char) (rest : str) (st : state) :
  pos st = len pre ->
  step (pre ++ section_sign :: d :: rest) st
  = Returns (mkState (len pre + 2) (at_sentence_start st)
               (result st ++ [section_sign; d])).
Proof.
  intros Hpos. unfold step. rewrite Hpos, getitem_middle. cbn [bind].
  rewrite N.eqb_refl, len_app, !len_cons. pose proof (len_nonneg rest).
  destruct (Z.ltb_spec (len pre + 1) (len pre + (1 + (1 + len rest))));
    [| lia].
  cbn [andb]. rewrite (app_cons_assoc pre section_sign).
  rewrite (getitem_snoc_index (pre ++ [section_sign]) d rest)
    by (rewrite len_app; reflexivity).
  reflexivity.
Qed.

Lemma step_emit (pre : str) (c : char) (rest : str) (st : state) :
  pos st = len pre ->
  (c =? section_sign)%N = false \/ rest = [] ->
  step (pre ++ c :: rest) st
  = Returns (mkState (len pre + 1)
               (snd (emit (result st) (at_sentence_start st) c rest))
               (result st ++ [fst (emit (result st) (at_sentence_start st) c rest)])).
Proof.
  intros Hpos Hc. unfold step. rewrite Hpos, getitem_middle. cbn [bind].
  assert (E : (c =? section_sign)%N && (len pre + 1 <? len (pre ++ c :: rest))
              = false).
  { destruct Hc as [-> | ->]; [reflexivity |].
    rewrite len_app, len_cons. change (len []) with 0.
    destruct (Z.ltb_spec (len pre + 1) (len pre + (1 + 0))); [lia |].
    apply andb_false_r. }
  rewrite E. unfold emit.
  destruct (c =? newline)%N; [reflexivity |].
  destruct (in_chars c terminators).
  { rewrite (app_cons_assoc pre c rest).
    replace (len pre + 1) with (len (pre ++ [c]))
      by (rewrite len_app; reflexivity).
    destruct (skip_blanks_scan rest (pre ++ [c])
                (length ((pre ++ [c]) ++ rest))) as (j & -> & Hj).
    { rewrite length_app. lia. }
    cbn [bind]. rewrite Hj.
    destruct (followed_by_blank rest); [| reflexivity].
    rewrite look_back_returns. reflexivity. }
  destruct (in_chars c blanks); [reflexivity |].
  destruct (in_chars c RUSSIAN_ALL).
  { destruct (at_sentence_start st); [reflexivity |].
    destruct (in_chars c RUSSIAN_UPPER); [| reflexivity].
    rewrite (app_cons_assoc pre c rest).
    replace (len pre + 1) with (len (pre ++ [c]))
      by (rewrite len_app; reflexivity).
    rewrite scan_word_scan by (rewrite length_app; lia).
    reflexivity. }
  destruct (isalpha c); reflexivity.
Qed.

(** The loop appends [scan] of the unread text to the output, and neither
    raises nor runs out of fuel. *)
Lemma loop_scan (rest pre : str) (st : state) (fuel : nat) :
  pos st = len pre ->
  (length rest <= fuel)%nat ->
  loop fuel (pre ++ rest) st
  = Returns (result st ++ scan (result st) (at_sentence_start st) rest).
Proof.
  remember (length rest) as m eqn:Hm.
  assert (Hle : (length rest <= m)%nat) by lia. clear Hm.
  revert rest pre st fuel Hle.
  induction m as [| m IH]; intros rest pre st fuel Hle Hpos Hfuel.
  - destruct rest; [| cbn [length] in Hle; lia].
    rewrite app_nil_r. cbn [scan]. rewrite app_nil_r.
    destruct fuel; cbn [loop]; rewrite Hpos, Z.ltb_irrefl; reflexivity.
  - destruct rest as [| c rest1].
    { rewrite app_nil_r. cbn [scan]. rewrite app_nil_r.
      destruct fuel; cbn [loop]; rewrite Hpos, Z.ltb_irrefl; reflexivity. }
    cbn [length] in Hle.
    destruct fuel as [| fuel]; [lia |].
    cbn [loop]. rewrite Hpos, len_app, len_cons.
    pose proof (len_nonneg rest1).
    destruct (Z.ltb_spec (len pre) (len pre + (1 + len rest1))); [| lia].
    assert (Hplain :
              (c =? section_sign)%N = false \/ rest1 = [] ->
              (st' <- step (pre ++ c :: rest1) st ;;
               loop fuel (pre ++ c :: rest1) st')
              = Returns (result st ++
                           (let (c', start') :=
                              emit (result st) (at_sentence_start st) c rest1 in
                            c' :: scan (result st ++ [c']) start' rest1))).
    { intros Hc. rewrite (step_emit pre c rest1 st Hpos Hc). cbn [bind].
      destruct (emit (result st) (at_sentence_start st) c rest1)
        as [c' start'].
      cbn [fst snd]. rewrite (app_cons_assoc pre c rest1).
      rewrite IH; cbn [pos result at_sentence_start].
      - rewrite <- app_assoc. reflexivity.
      - lia.
      - rewrite len_app. reflexivity.
      - lia. }
    destruct rest1 as [| d rest2]; cbn [scan].
    + apply Hplain. right. reflexivity.
    + destruct (c =? section_sign)%N eqn:Hc.
      * apply N.eqb_eq in Hc. subst c.
        rewrite (step_pair pre d rest2 st Hpos). cbn [bind].
        replace (pre ++ section_sign :: d :: rest2)
          with ((pre ++ [section_sign; d]) ++ rest2)
          by (rewrite <- app_assoc; reflexivity).
        rewrite IH; cbn [pos result at_sentence_start].
        -- rewrite <- app_assoc. reflexivity.
        -- cbn [length] in Hle. lia.
        -- rewrite len_app. reflexivity.
        -- cbn [length] in Hfuel. lia.
      * apply Hplain. left. reflexivity.
Qed.

(** [fix_sentence_case] returns [normalize_string] of its argument. *)
Lemma fix_sentence_case_returns (text : str) :
  fix_sentence_case text = Returns (normalize_string text).
Proof.
  unfold fix_sentence_case, normalize_string.
  destruct (has_russian text); cbn [negb]; [| reflexivity].
  apply (loop_scan text [] initial (length text)); [reflexivity | lia].
Qed.

(** ** The alphabet *)

Ltac by_letters H :=
  let x := fresh "x" in
  let Hin := fresh "Hin" in
  let Heq := fresh "Heq" in
  apply existsb_exists in H; destruct H as (x & Hin & Heq);
  apply N.eqb_eq in Heq; subst;
  cbv [RUSSIAN_ALL RUSSIAN_UPPER RUSSIAN_LOWER app] in Hin; cbn [In] in Hin;
  repeat (destruct Hin as [<- | Hin]; [vm_compute; intuition congruence |]);
  destruct Hin.

Lemma russian_letter_facts (c : char) :
  in_chars c RUSSIAN_ALL = true ->
  (c =? section_sign)%N = false
  /\ (c =? newline)%N = false
  /\ in_chars c terminators = false
  /\ in_chars c blanks = false
  /\ in_chars c blanks_or_newline = false
  /\ in_chars (upper c) RUSSIAN_ALL = true
  /\ in_chars (lower c) RUSSIAN_ALL = true
  /\ upper (upper c) = upper c
  /\ in_chars (upper c) RUSSIAN_LOWER = false
  /\ (in_chars c RUSSIAN_UPPER = true ->
      in_chars (lower c) RUSSIAN_UPPER = false
      /\ in_chars (lower c) RUSSIAN_LOWER = true
      /\ in_chars c RUSSIAN_LOWER = false
      /\ upper c = c)
  /\ (in_chars c RUSSIAN_UPPER = false ->
      in_chars c RUSSIAN_LOWER = true /\ lower c = c).
Proof. intros H. by_letters H. Qed.

Lemma lower_letter_is_letter (c : char) :
  in_chars c RUSSIAN_LOWER = true -> in_chars c RUSSIAN_ALL = true.
Proof.
  intros H. unfold RUSSIAN_ALL, in_chars. rewrite existsb_app.
  apply orb_true_iff. right. exact H.
Qed.

Lemma upper_letter_is_letter (c : char) :
  in_chars c RUSSIAN_UPPER = true -> in_chars c RUSSIAN_ALL = true.
Proof.
  intros H. unfold RUSSIAN_ALL, in_chars. rewrite existsb_app.
  apply orb_true_iff. left. exact H.
Qed.

(** The regular expression and the two sets describe the same alphabet. *)
Lemma russian_class_all (c : char) :
  russian_class c = in_chars c RUSSIAN_ALL.
Proof.
  destruct (in_chars c RUSSIAN_ALL) eqn:H.
  - by_letters H.
  - destruct (russian_class c) eqn:R; [| reflexivity].
    rewrite <- H. symmetry. unfold russian_class in R.
    assert (Hc : (1040 <= c <= 1103 \/ c = 1105 \/ c = 1025)%N).
    { rewrite !orb_true_iff, !andb_true_iff, !N.leb_le, !N.eqb_eq in R. lia. }
    clear R H. destruct Hc as [[Hlo Hhi] | [-> | ->]]; [| reflexivity ..].
    assert (E : c = (1040 + (c - 1040))%N) by lia.
    assert (Hb : (c - 1040 < 64)%N) by lia.
    rewrite E. generalize dependent (c - 1040)%N. clear.
    intros k _ Hk.
    assert (Hn : (N.to_nat k < 64)%nat) by lia.
    rewrite <- (N2Nat.id k). generalize dependent (N.to_nat k). clear.
    intros n Hn.
    do 64 (destruct n as [| n]; [reflexivity |]). lia.
Qed.

(** The case of a letter is the only thing [emit] changes. *)
Definition same_letter (c c' : char) : Prop :=
  c' = c \/ (in_chars c RUSSIAN_ALL = true /\ in_chars c' RUSSIAN_ALL = true).

Lemma emit_same_letter (res : list char) (start : bool) (c : char) (rest : str) :
  same_letter c (fst (emit res start c rest)).
Proof.
  unfold emit, same_letter.
  destruct (c =? newline)%N; [left; reflexivity |].
  destruct (in_chars c terminators); [left; reflexivity |].
  destruct (in_chars c blanks); [left; reflexivity |].
  destruct (in_chars c RUSSIAN_ALL) eqn:Hc.
  - pose proof (russian_letter_facts c Hc) as F.
    destruct start; [right; cbn [fst]; intuition |].
    destruct (in_chars c RUSSIAN_UPPER); [| left; reflexivity].
    destruct (word_has_lower rest); [right; cbn [fst]; intuition |].
    left; reflexivity.
  - destruct (isalpha c); left; reflexivity.
Qed.

Lemma same_letter_tests (c c' : char) :
  same_letter c c' ->
  (c' =? section_sign)%N = (c =? section_sign)%N
  /\ (c' =? newline)%N = (c =? newline)%N
  /\ in_chars c' terminators = in_chars c terminators
  /\ in_chars c' blanks = in_chars c blanks
  /\ in_chars c' blanks_or_newline = in_chars c blanks_or_newline
  /\ in_chars c' RUSSIAN_ALL = in_chars c RUSSIAN_ALL.
Proof.
  intros [-> | [Hc Hc']]; [intuition |].
  pose proof (russian_letter_facts c Hc).
  pose proof (russian_letter_facts c' Hc').
  intuition congruence.
Qed.

(** ** Equations of the scan *)

Lemma scan_pair (res : list char) (start : bool) (d : char) (rest : str) :
  scan res start (section_sign :: d :: rest)
  = section_sign :: d :: scan (res ++ [section_sign; d]) start rest.
Proof. reflexivity. Qed.

Lemma scan_plain (res : list char) (start : bool) (c : char) (rest : str) :
  (c =? section_sign)%N = false \/ rest = [] ->
  scan res start (c :: rest)
  = fst (emit res start c rest)
    :: scan (res ++ [fst (emit res start c rest)])
         (snd (emit res start c rest)) rest.
Proof.
  intros Hc. cbn [scan]. destruct rest as [| d rest2].
  - destruct (emit res start c []); reflexivity.
  - destruct Hc as [-> | Hc]; [| discriminate].
    destruct (emit res start c (d :: rest2)); reflexivity.
Qed.

(** Every string splits as a format-code pair and a tail, or as one
    character handled by [emit] and a tail. *)
Lemma scan_cases (rest : str) :
  rest = []
  \/ (exists d rest2, rest = section_sign :: d :: rest2)
  \/ (exists c rest1, rest = c :: rest1
        /\ ((c =? section_sign)%N = false \/ rest1 = [])).
Proof.
  destruct rest as [| c rest1]; [left; reflexivity |]. right.
  destruct (c =? section_sign)%N eqn:Hc.
  - destruct rest1 as [| d rest2].
    + right. exists c, []. auto.
    + left. apply N.eqb_eq in Hc. subst c. eauto.
  - right. exists c, rest1. auto.
Qed.

Lemma followed_by_blank_scan (res : list char) (start : bool) (rest : str) :
  followed_by_blank (scan res start rest) = followed_by_blank rest.
Proof.
  destruct (scan_cases rest) as [-> | [(d & rest2 & ->) | (c & rest1 & -> & Hc)]].
  - reflexivity.
  - reflexivity.
  - rewrite (scan_plain _ _ _ _ Hc). cbn [followed_by_blank].
    apply (same_letter_tests _ _ (emit_same_letter res start c rest1)).
Qed.

Lemma blank_ends_word (h : char) :
  in_chars h blanks = true -> in_chars h blanks_or_newline = true.
Proof.
  unfold in_chars, blanks, blanks_or_newline. cbn [existsb].
  rewrite !orb_false_r, !orb_true_iff. tauto.
Qed.

Lemma followed_by_blank_no_word (rest : str) :
  followed_by_blank rest = true -> word_has_lower rest = false.
Proof.
  destruct rest as [| h t]; [reflexivity |]. cbn [followed_by_blank word_has_lower].
  intros H. rewrite (blank_ends_word h H). reflexivity.
Qed.

Lemma terminator_tests (c : char) :
  in_chars c terminators = true ->
  in_chars c blanks_or_newline = false /\ in_chars c RUSSIAN_LOWER = false
  /\ (c =? section_sign)%N = false.
Proof.
  intros H. apply existsb_exists in H. destruct H as (x & Hin & Heq).
  apply N.eqb_eq in Heq. subst x. cbn [terminators In] in Hin.
  destruct Hin as [<- | [<- | [<- | []]]]; vm_compute; auto.
Qed.

(** Below a word that the loop enters away from a sentence start, the scan
    leaves the answer of the forward look-ahead unchanged. *)
Lemma word_has_lower_scan (rest : str) (res : list char) :
  word_has_lower (scan res false rest) = word_has_lower rest.
Proof.
  remember (length rest) as m eqn:Hm.
  assert (Hle : (length rest <= m)%nat) by lia. clear Hm.
  revert rest res Hle. induction m as [| m IH]; intros rest res Hle.
  { destruct rest; [reflexivity | cbn [length] in Hle; lia]. }
  destruct (scan_cases rest) as [-> | [(d & rest2 & ->) | (c & rest1 & -> & Hc)]].
  - reflexivity.
  - rewrite scan_pair. cbn [word_has_lower].
    destruct (in_chars section_sign blanks_or_newline); [reflexivity |].
    destruct (in_chars section_sign RUSSIAN_LOWER); [reflexivity |].
    destruct (in_chars d blanks_or_newline); [reflexivity |].
    destruct (in_chars d RUSSIAN_LOWER); [reflexivity |].
    apply IH. cbn [length] in Hle. lia.
  - rewrite (scan_plain _ _ _ _ Hc). cbn [length] in Hle.
    assert (IH' : forall r, word_has_lower (scan r false rest1)
                            = word_has_lower rest1)
      by (intros r; apply IH; lia).
    clear IH. unfold emit.
    destruct (c =? newline)%N eqn:Hnl.
    { apply N.eqb_eq in Hnl. subst c. reflexivity. }
    destruct (in_chars c terminators) eqn:Ht.
    { cbn [fst snd word_has_lower].
      destruct (terminator_tests c Ht) as (-> & -> & _).
      destruct (followed_by_blank rest1) eqn:Hb.
      - rewrite (followed_by_blank_no_word rest1 Hb).
        apply followed_by_blank_no_word.
        rewrite followed_by_blank_scan. exact Hb.
      - apply IH'. }
    destruct (in_chars c blanks) eqn:Hbl.
    { cbn [fst snd word_has_lower]. rewrite (blank_ends_word c Hbl).
      reflexivity. }
    destruct (in_chars c RUSSIAN_ALL) eqn:Hr.
    { pose proof (russian_letter_facts c Hr) as F.
      destruct (in_chars c RUSSIAN_UPPER) eqn:Hu.
      - destruct F as (_ & _ & _ & _ & Hw & _ & Hl & _ & _ & Fu & _).
        destruct (Fu eq_refl) as (_ & Hll & Hcl & _).
        pose proof (russian_letter_facts _ Hl) as (_ & _ & _ & _ & Hlw & _).
        cbn [fst snd word_has_lower]. rewrite Hw, Hcl.
        destruct (word_has_lower rest1) eqn:Hrest.
        + cbn [word_has_lower]. rewrite Hlw, Hll. reflexivity.
        + cbn [word_has_lower]. rewrite Hw, Hcl. apply IH'.
      - destruct F as (_ & _ & _ & _ & Hw & _ & _ & _ & _ & _ & Fl).
        destruct (Fl eq_refl) as (Hcl & _).
        cbn [fst snd word_has_lower]. rewrite Hw, Hcl. reflexivity. }
    destruct (isalpha c); cbn [fst snd word_has_lower];
      destruct (in_chars c blanks_or_newline); try reflexivity;
      destruct (in_chars c RUSSIAN_LOWER); try reflexivity; apply IH'.
Qed.

(** A second reading of an emitted character takes the same branch and
    emits it unchanged. *)
Lemma emit_again (res : list char) (start : bool) (c : char) (rest out : str) :
  followed_by_blank out = followed_by_blank rest ->
  (snd (emit res start c rest) = false ->
   word_has_lower out = word_has_lower rest) ->
  emit res start (fst (emit res start c rest)) out = emit res start c rest.
Proof.
  intros Hb Hw. unfold emit in *.
  destruct (c =? newline)%N eqn:Hnl.
  { cbn [fst]. rewrite Hnl. reflexivity. }
  destruct (in_chars c terminators) eqn:Ht.
  { cbn [fst]. rewrite Hnl, Ht, Hb. reflexivity. }
  destruct (in_chars c blanks) eqn:Hbl.
  { cbn [fst]. rewrite Hnl, Ht, Hbl. reflexivity. }
  destruct (in_chars c RUSSIAN_ALL) eqn:Hr.
  { pose proof (russian_letter_facts c Hr)
      as (_ & _ & _ & _ & _ & Hup & Hlo & Huu & _ & Fu & _).
    destruct start.
    - cbn [fst].
      pose proof (russian_letter_facts _ Hup) as (_ & -> & -> & -> & _).
      rewrite Hup, Huu. reflexivity.
    - destruct (in_chars c RUSSIAN_UPPER) eqn:Hu.
      + destruct (Fu eq_refl) as (Hlu & _).
        destruct (word_has_lower rest) eqn:Hrest; cbn [fst snd] in *.
        * pose proof (russian_letter_facts _ Hlo) as (_ & -> & -> & -> & _).
          rewrite Hlo, Hlu. reflexivity.
        * rewrite Hnl, Ht, Hbl, Hr, Hu, (Hw eq_refl). reflexivity.
      + cbn [fst]. rewrite Hnl, Ht, Hbl, Hr, Hu. reflexivity. }
  destruct (isalpha c) eqn:Ha; cbn [fst];
    rewrite Hnl, Ht, Hbl, Hr, Ha; reflexivity.
Qed.

Lemma emit_keeps_section_sign (res : list char) (start : bool) (c : char) (rest : str) :
  (fst (emit res start c rest) =? section_sign)%N = (c =? section_sign)%N.
Proof. apply (same_letter_tests _ _ (emit_same_letter res start c rest)). Qed.

Lemma scan_nil_inv (res : list char) (start : bool) (rest : str) :
  scan res start rest = [] -> rest = [].
Proof.
  destruct (scan_cases rest) as [-> | [(d & rest2 & ->) | (c & rest1 & -> & Hc)]];
    [reflexivity | |].
  - rewrite scan_pair. discriminate.
  - rewrite (scan_plain _ _ _ _ Hc). discriminate.
Qed.

(** Scanning the output of a scan, from the same point, changes nothing. *)
Lemma scan_idempotent (rest : str) (res : list char) (start : bool) :
  scan res start (scan res start rest) = scan res start rest.
Proof.
  remember (length rest) as m eqn:Hm.
  assert (Hle : (length rest <= m)%nat) by lia. clear Hm.
  revert rest res start Hle. induction m as [| m IH]; intros rest res start Hle.
  { destruct rest; [reflexivity | cbn [length] in Hle; lia]. }
  destruct (scan_cases rest) as [-> | [(d & rest2 & ->) | (c & rest1 & -> & Hc)]].
  - reflexivity.
  - rewrite !scan_pair. rewrite IH by (cbn [length] in Hle; lia). reflexivity.
  - rewrite (scan_plain _ _ _ _ Hc).
    set (c' := fst (emit res start c rest1)).
    set (start' := snd (emit res start c rest1)).
    set (out := scan (res ++ [c']) start' rest1).
    assert (Hc' : (c' =? section_sign)%N = false \/ out = []).
    { destruct Hc as [Hc | ->].
      - left. unfold c'. rewrite emit_keeps_section_sign. exact Hc.
      - right. reflexivity. }
    rewrite (scan_plain _ _ _ _ Hc').
    assert (E : emit res start c' out = emit res start c rest1).
    { apply emit_again.
      - apply followed_by_blank_scan.
      - fold start'. intros Hs. unfold out. rewrite Hs.
        apply word_has_lower_scan. }
    rewrite E. fold c' start'. f_equal.
    apply IH. cbn [length] in Hle. lia.
Qed.

Lemma normalize_string_idempotent (text : str) :
  normalize_string (normalize_string text) = normalize_string text.
Proof.
  unfold normalize_string. destruct (has_russian text) eqn:H.
  - destruct (has_russian (scan [] true text)); [| reflexivity].
    apply scan_idempotent.
  - rewrite H. reflexivity.
Qed.

(** ** Documents *)

Lemma json_induction (P : json -> Prop) :
  P JNull ->
  (forall b, P (JBool b)) ->
  (forall x, P (JNum x)) ->
  (forall s, P (JStr s)) ->
  (forall items, Forall P items -> P (JArr items)) ->
  (forall entries, Forall (fun kv => P (snd kv)) entries -> P (JObj entries)) ->
  forall v, P v.
Proof.
  intros Hnull Hbool Hnum Hstr Harr Hobj.
  fix IH 1. intros [| b | x | s | items | entries].
  - exact Hnull.
  - apply Hbool.
  - apply Hnum.
  - apply Hstr.
  - apply Harr. induction items as [| v items IHitems].
    + constructor.
    + constructor; [apply IH | exact IHitems].
  - apply Hobj. induction entries as [| [k v] entries IHentries].
    + constructor.
    + constructor; [apply IH | exact IHentries].
Qed.

Lemma str_eqb_eq (a b : str) : str_eqb a b = true <-> a = b.
Proof.
  unfold str_eqb. destruct (list_eq_dec N.eq_dec a b); split; congruence.
Qed.

Lemma str_eqb_refl (a : str) : str_eqb a a = true.
Proof. apply str_eqb_eq. reflexivity. Qed.

Lemma dict_set_new (key : str) (value : json) (d : dict) :
  existsb (str_eqb key) (keys d) = false ->
  dict_set key value d = d ++ [(key, value)].
Proof.
  induction d as [| [k v] d IH]; cbn [keys map existsb dict_set fst app];
    intros H; [reflexivity |].
  apply orb_false_iff in H. destruct H as [-> H].
  fold (keys d) in H. rewrite (IH H). reflexivity.
Qed.

Lemma dict_get_first (key : str) (value : json) (d : dict) :
  dict_get key ((key, value) :: d) = Some value.
Proof. cbn [dict_get]. rewrite str_eqb_refl. reflexivity. Qed.

Lemma dict_get_none (key : str) (d : dict) :
  dict_get key d = None <-> existsb (str_eqb key) (keys d) = false.
Proof.
  induction d as [| [k v] d IH]; cbn [dict_get keys map existsb fst];
    [tauto |].
  destruct (str_eqb key k); cbn [orb]; [split; discriminate | exact IH].
Qed.

Lemma existsb_str_app (k : str) (l1 l2 : list str) :
  existsb (str_eqb k) (l1 ++ l2) = false ->
  existsb (str_eqb k) l1 = false /\ existsb (str_eqb k) l2 = false.
Proof. rewrite existsb_app. apply orb_false_iff. Qed.

Lemma existsb_str_sym (k k' : str) : str_eqb k k' = str_eqb k' k.
Proof.
  destruct (str_eqb k k') eqn:E.
  - apply str_eqb_eq in E. subst. symmetry. apply str_eqb_refl.
  - destruct (str_eqb k' k) eqn:E'; [| reflexivity].
    apply str_eqb_eq in E'. subst. rewrite str_eqb_refl in E. discriminate.
Qed.

(** With distinct keys, filling a [dict] key by key appends the entries. *)
Lemma distinct_app_cons (ks : list str) (k : str) (rest : list str) :
  distinct (ks ++ k :: rest) = true ->
  existsb (str_eqb k) ks = false /\ distinct ((ks ++ [k]) ++ rest) = true.
Proof.
  induction ks as [| k0 ks IH]; cbn [app distinct existsb].
  - intros H. split; [reflexivity | exact H].
  - intros H. apply andb_true_iff in H. destruct H as [Hk0 Hd].
    destruct (IH Hd) as [Hk Hd'].
    rewrite negb_true_iff in Hk0.
    destruct (existsb_str_app _ _ _ Hk0) as [Hk0l Hk0r].
    cbn [existsb] in Hk0r. apply orb_false_iff in Hk0r.
    destruct Hk0r as [Hne Hk0r].
    split.
    + rewrite existsb_str_sym, Hne. exact Hk.
    + rewrite Hd', andb_true_r, negb_true_iff, !existsb_app.
      cbn [existsb]. rewrite Hk0l, Hne, Hk0r. reflexivity.
Qed.

Lemma keys_app (d1 d2 : dict) : keys (d1 ++ d2) = keys d1 ++ keys d2.
Proof. apply map_app. Qed.

Lemma wf_arr_inv (items : list json) :
  wf (JArr items) = true -> Forall (fun v => wf v = true) items.
Proof. cbn [wf]. intros H. apply Forall_forall. apply forallb_forall. exact H. Qed.

Lemma wf_obj_inv (entries : dict) :
  wf (JObj entries) = true ->
  distinct (keys entries) = true
  /\ Forall (fun kv => wf (snd kv) = true) entries.
Proof.
  cbn [wf]. intros H. apply andb_true_iff in H. destruct H as [Hd Hw].
  split; [exact Hd |]. apply Forall_forall.
  exact (proj1 (forallb_forall _ _) Hw).
Qed.

Lemma dict_comprehension_map (f : json -> outcome json) (g : json -> json)
    (items result : dict) :
  Forall (fun kv => f (snd kv) = Returns (g (snd kv))) items ->
  distinct (keys result ++ keys items) = true ->
  dict_comprehension f items result
  = Returns (result ++ map (fun kv => (fst kv, g (snd kv))) items).
Proof.
  revert result. induction items as [| [k v] items IH]; intros result Hf Hd.
  - cbn. rewrite app_nil_r. reflexivity.
  - inversion Hf as [| ? ? Hv Hitems]; subst. cbn [snd] in Hv.
    cbn [dict_comprehension map fst snd]. rewrite Hv. cbn [bind].
    cbn [keys map fst] in Hd. fold (keys items) in Hd.
    destruct (distinct_app_cons _ _ _ Hd) as [Hnew Hd'].
    rewrite (dict_set_new k (g v) result Hnew).
    fold (dict_comprehension f).
    rewrite IH; [| exact Hitems | rewrite keys_app; exact Hd'].
    rewrite <- app_assoc. reflexivity.
Qed.

Lemma list_comprehension_map (f : json -> outcome json) (g : json -> json)
    (items : list json) :
  Forall (fun v => f v = Returns (g v)) items ->
  list_comprehension f items = Returns (map g items).
Proof.
  induction items as [| v items IH]; intros Hf; [reflexivity |].
  inversion Hf as [| ? ? Hv Hitems]; subst.
  cbn [list_comprehension map]. rewrite Hv. cbn [bind].
  fold (list_comprehension f). rewrite (IH Hitems). reflexivity.
Qed.

(** [fix_value] returns [normalize] of the document. *)
Lemma fix_value_normalize (d : json) :
  wf d = true -> fix_value d = Returns (normalize d).
Proof.
  induction d as [| b | x | s | items IH | entries IH] using json_induction;
    intros Hwf; try reflexivity.
  - cbn [fix_value normalize]. rewrite fix_sentence_case_returns. reflexivity.
  - cbn [fix_value normalize].
    rewrite (list_comprehension_map fix_value normalize); [reflexivity |].
    pose proof (wf_arr_inv _ Hwf) as Hw.
    rewrite Forall_forall in *. auto.
  - cbn [fix_value normalize]. destruct (wf_obj_inv _ Hwf) as [Hd Hw].
    rewrite (dict_comprehension_map fix_value normalize);
      [reflexivity | | exact Hd].
    rewrite Forall_forall in *. auto.
Qed.

Lemma normalize_keys (entries : dict) :
  keys (map (fun kv => (fst kv, normalize (snd kv))) entries) = keys entries.
Proof. unfold keys. rewrite map_map. reflexivity. Qed.

Lemma wf_normalize (d : json) : wf d = true -> wf (normalize d) = true.
Proof.
  induction d as [| b | x | s | items IH | entries IH] using json_induction;
    intros Hwf; try reflexivity.
  - cbn [normalize wf]. pose proof (wf_arr_inv _ Hwf) as Hw.
    apply forallb_forall. intros v Hv. apply in_map_iff in Hv.
    destruct Hv as (v0 & <- & Hv0). rewrite Forall_forall in *. auto.
  - destruct (wf_obj_inv _ Hwf) as [Hd Hw]. cbn [normalize wf].
    fold (keys (map (fun kv => (fst kv, normalize (snd kv))) entries)).
    rewrite normalize_keys, Hd. cbn [andb].
    apply forallb_forall. intros kv Hkv. apply in_map_iff in Hkv.
    destruct Hkv as (kv0 & <- & Hkv0). cbn [snd].
    rewrite Forall_forall in *. auto.
Qed.

Lemma normalize_idempotent (d : json) : normalize (normalize d) = normalize d.
Proof.
  induction d as [| b | x | s | items IH | entries IH] using json_induction;
    try reflexivity.
  - cbn [normalize]. rewrite normalize_string_idempotent. reflexivity.
  - cbn [normalize]. f_equal. rewrite map_map. apply map_ext_in.
    intros v Hv. rewrite Forall_forall in IH. auto.
  - cbn [normalize]. f_equal. rewrite map_map. apply map_ext_in.
    intros kv Hkv. cbn [fst snd]. rewrite Forall_forall in IH.
    rewrite (IH kv Hkv). reflexivity.
Qed.

Lemma normalize_same_shape (d : json) : same_shape d (normalize d).
Proof.
  induction d as [| b | x | s | items IH | entries IH] using json_induction;
    cbn [normalize]; try constructor.
  - induction IH; cbn [map]; constructor; auto.
  - induction IH; cbn [map]; constructor; auto.
Qed.

(** ** The merge *)

Lemma merge_dicts_map (resource items result : dict) :
  distinct (keys result ++ keys items) = true ->
  merge_dicts merge_recursive resource items result
  = result ++ map (fun kv => (fst kv, merged_value resource (fst kv) (snd kv)))
                items.
Proof.
  revert result. induction items as [| [k v] items IH]; intros result Hd.
  - cbn. rewrite app_nil_r. reflexivity.
  - cbn [merge_dicts map fst snd].
    cbn [keys map fst] in Hd. fold (keys items) in Hd.
    destruct (distinct_app_cons _ _ _ Hd) as [Hnew Hd'].
    rewrite dict_set_new by exact Hnew.
    fold (merge_dicts merge_recursive resource).
    rewrite IH by (rewrite keys_app; exact Hd').
    rewrite <- app_assoc. reflexivity.
Qed.

Lemma merge_objects (a r : dict) :
  distinct (keys a) = true ->
  merge_recursive (JObj a) (JObj r)
  = JObj (map (fun kv => (fst kv, merged_value r (fst kv) (snd kv))) a).
Proof.
  intros Hd. cbn [merge_recursive].
  rewrite merge_dicts_map by exact Hd. reflexivity.
Qed.

Lemma dict_get_map (F : str -> json -> json) (k : str) (a : dict) :
  dict_get k (map (fun kv => (fst kv, F (fst kv) (snd kv))) a)
  = option_map (F k) (dict_get k a).
Proof.
  induction a as [| [k0 v0] a IH]; [reflexivity |].
  cbn [map dict_get fst snd]. destruct (str_eqb k k0) eqn:E.
  - apply str_eqb_eq in E. subst. reflexivity.
  - exact IH.
Qed.

Lemma dict_get_in (a : dict) (k : str) (v : json) :
  distinct (keys a) = true -> In (k, v) a -> dict_get k a = Some v.
Proof.
  induction a as [| [k0 v0] a IH]; cbn [keys map fst distinct In dict_get];
    [tauto |].
  intros Hd Hin. apply andb_true_iff in Hd. destruct Hd as [Hk0 Hd].
  destruct Hin as [Heq | Hin].
  - injection Heq as -> ->. rewrite str_eqb_refl. reflexivity.
  - destruct (str_eqb k k0) eqn:E.
    + apply str_eqb_eq in E. subst k0. rewrite negb_true_iff in Hk0.
      assert (Hex : existsb (str_eqb k) (map fst a) = true).
      { apply existsb_exists. exists k. split; [| apply str_eqb_refl].
        apply in_map_iff. exists (k, v). auto. }
      congruence.
    + apply IH; assumption.
Qed.

Lemma merge_lists_length (a r : list json) :
  length (merge_lists merge_recursive a r) = length a.
Proof.
  revert r. induction a as [| x a IH]; intros r; [reflexivity |].
  destruct r as [| y r]; cbn [merge_lists length];
    fold (merge_lists merge_recursive); rewrite IH; reflexivity.
Qed.

Lemma merge_lists_nth (a r : list json) (i : nat) :
  nth_error (merge_lists merge_recursive a r) i
  = match nth_error a i with
    | Some x => Some match nth_error r i with
                     | Some y => merge_recursive x y
                     | None => x
                     end
    | None => None
    end.
Proof.
  revert r i. induction a as [| x a IH]; intros r i.
  - destruct i; reflexivity.
  - destruct r as [| y r]; cbn [merge_lists];
      fold (merge_lists merge_recursive); destruct i as [| i];
      cbn [nth_error]; try reflexivity.
    + rewrite IH. destruct (nth_error a i); [| reflexivity].
      destruct i; reflexivity.
    + apply IH.
Qed.

Lemma merge_mismatch (i e : json) :
  kind_of i <> kind_of e -> merge_recursive i e = i.
Proof.
  destruct i, e; cbn [kind_of merge_recursive]; intros H;
    try reflexivity; try congruence;
    destruct (has_russian s); reflexivity.
Qed.

Lemma same_keys_refl (v : json) : same_keys v v.
Proof.
  induction v as [| b | x | s | items IH | entries IH] using json_induction;
    try (apply keys_leaf; discriminate).
  - apply keys_arr. induction IH; constructor; auto.
  - apply keys_obj. induction IH; constructor; auto.
Qed.

Lemma merge_same_keys (i : json) :
  wf i = true -> forall e, same_keys i (merge_recursive i e).
Proof.
  induction i as [| b | x | s | items IH | entries IH] using json_induction;
    intros Hwf e; try (apply keys_leaf; discriminate).
  - assert (Hk : kind_of (merge_recursive (JStr s) e) = KStr).
    { cbn [merge_recursive]. destruct (has_russian s); [reflexivity |].
      destruct e; reflexivity. }
    apply keys_leaf; try discriminate; rewrite Hk; discriminate.
  - destruct e as [| | | | r |]; try apply same_keys_refl.
    cbn [merge_recursive]. apply keys_arr.
    pose proof (wf_arr_inv _ Hwf) as Hw. clear Hwf.
    revert r. induction items as [| v items IHitems]; intros r;
      [constructor |].
    inversion IH as [| ? ? IHv IHrest]; subst.
    inversion Hw as [| ? ? Hv Hrest]; subst.
    destruct r as [| y r]; cbn [merge_lists];
      fold (merge_lists merge_recursive); constructor; auto.
    apply same_keys_refl.
  - destruct e as [| | | | | r]; try apply same_keys_refl.
    destruct (wf_obj_inv _ Hwf) as [Hd Hw].
    rewrite merge_objects by exact Hd. apply keys_obj.
    clear Hd Hwf. induction entries as [| [k v] entries IHentries];
      [constructor |].
    inversion IH as [| ? ? IHv IHrest]; subst.
    inversion Hw as [| ? ? Hv Hrest]; subst.
    cbn [map fst snd]. constructor; [| auto].
    cbn [fst snd] in *. split; [reflexivity |].
    unfold merged_value. destruct (dict_get k r); [auto |].
    apply same_keys_refl.
Qed.


(** ** More on indexing and on the look-back *)

Lemma getitem_split {A : Type} (l : list A) (i : Z) (a : A) :
  0 <= i -> getitem l i = Returns a ->
  exists pre rest, l = pre ++ a :: rest /\ len pre = i.
Proof.
  intros Hi. unfold getitem.
  destruct (Z.ltb_spec i 0); [lia |].
  destruct ((i <? 0) || (len l <=? i)); [discriminate |].
  destruct (nth_error l (Z.to_nat i)) as [a' |] eqn:E; [| discriminate].
  intros Ha. injection Ha as ->.
  destruct (nth_error_split l (Z.to_nat i) E) as (pre & rest & -> & Hlen).
  exists pre, rest. split; [reflexivity |]. unfold len. lia.
Qed.

Lemma getitem_next {A : Type} (pre : list A) (c : A) (rest : list A) (i : Z) (h : A) :
  i = len pre ->
  getitem (pre ++ c :: rest) (i + 1) = Returns h ->
  exists rest2, rest = h :: rest2.
Proof.
  intros -> H. destruct rest as [| h' rest2].
  - exfalso. unfold getitem in H. pose proof (len_nonneg pre).
    rewrite len_app, len_cons in H. change (len []) with 0 in H.
    destruct (Z.ltb_spec (len pre + 1) 0); [lia |].
    destruct (Z.ltb_spec (len pre + 1) 0); [lia |].
    destruct (Z.leb_spec (len pre + (1 + 0)) (len pre + 1)); [| lia].
    discriminate.
  - rewrite app_cons_assoc in H.
    rewrite (getitem_snoc_index (pre ++ [c]) h' rest2) in H
      by (rewrite len_app; reflexivity).
    injection H as ->. eauto.
Qed.

Lemma boundary_flag_lone_letter (out : list char) (c : char) (start : bool) :
  boundary_flag (out ++ [c]) start
  = if lone_letter space_or_terminator out then start else true.
Proof.
  assert (E : out = rev (rev out)) by (symmetry; apply rev_involutive).
  unfold boundary_flag, look_back, lone_letter.
  destruct (rev out) as [| l [| b t]]; cbn [rev app] in E; subst out.
  - reflexivity.
  - cbv zeta. change (len ([l] ++ [c]) - 2) with 0.
    change (getitem ([l] ++ [c]) 0) with (Returns l).
    change (0 >=? 0) with true. change (0 >? 0) with false. cbn [bind].
    destruct (in_chars l RUSSIAN_ALL); reflexivity.
  - cbv zeta. rewrite <- !app_assoc. cbn [app].
    rewrite !len_app, !len_cons. change (len []) with 0.
    pose proof (len_nonneg (rev t)).
    replace (len (rev t) + (1 + (1 + (1 + 0))) - 2) with (len (rev t) + 1)
      by lia.
    destruct (Z.geb_spec (len (rev t) + 1) 0); [| lia].
    rewrite (app_cons_assoc (rev t) b).
    rewrite (getitem_snoc_index (rev t ++ [b]) l [c])
      by (rewrite len_app; reflexivity).
    cbn [bind]. destruct (in_chars l RUSSIAN_ALL); [| reflexivity].
    destruct (Z.gtb_spec (len (rev t) + 1) 0); [| lia].
    rewrite <- app_assoc. cbn [app].
    rewrite (getitem_snoc_index (rev t) b [l; c]) by lia.
    cbn [bind andb]. unfold space_or_terminator.
    destruct (in_chars b blanks_or_terminators); reflexivity.
Qed.

Lemma same_letter_refl (c : char) : same_letter c c.
Proof. left. reflexivity. Qed.

(** The scan answers character for character, changing at most the case of
    a letter. *)
Lemma scan_same_letters (rest : str) (res : list char) (start : bool) :
  Forall2 same_letter rest (scan res start rest).
Proof.
  remember (length rest) as m eqn:Hm.
  assert (Hle : (length rest <= m)%nat) by lia. clear Hm.
  revert rest res start Hle. induction m as [| m IH]; intros rest res start Hle.
  { destruct rest; [constructor | cbn [length] in Hle; lia]. }
  destruct (scan_cases rest) as [-> | [(d & rest2 & ->) | (c & rest1 & -> & Hc)]].
  - constructor.
  - rewrite scan_pair. cbn [length] in Hle.
    repeat constructor; try apply same_letter_refl. apply IH. lia.
  - rewrite (scan_plain _ _ _ _ Hc). cbn [length] in Hle. constructor.
    + apply emit_same_letter.
    + apply IH. lia.
Qed.

Lemma normalize_string_same_letters (text : str) :
  Forall2 same_letter text (normalize_string text).
Proof.
  unfold normalize_string. destruct (has_russian text).
  - apply scan_same_letters.
  - induction text; constructor; [apply same_letter_refl | assumption].
Qed.

(** The forward look-ahead finds a lowercase letter exactly when one stands
    before the first space, tab or newline. *)
Lemma word_has_lower_spec (rest : str) :
  word_has_lower rest = true
  <-> exists w l tail,
        rest = w ++ l :: tail
        /\ Forall (fun x => in_chars x blanks_or_newline = false) w
        /\ in_chars l RUSSIAN_LOWER = true.
Proof.
  split.
  - induction rest as [| c rest IH]; cbn [word_has_lower]; [discriminate |].
    destruct (in_chars c blanks_or_newline) eqn:Hb; [discriminate |].
    destruct (in_chars c RUSSIAN_LOWER) eqn:Hl.
    + intros _. exists [], c, rest. auto.
    + intros H. destruct (IH H) as (w & l & tail & -> & Hw & Hlow).
      exists (c :: w), l, tail. auto.
  - intros (w & l & tail & -> & Hw & Hlow).
    induction Hw as [| c w Hc Hw IH]; cbn [app word_has_lower].
    + pose proof (russian_letter_facts l (lower_letter_is_letter l Hlow))
        as (_ & _ & _ & _ & -> & _).
      rewrite Hlow. reflexivity.
    + rewrite Hc. destruct (in_chars c RUSSIAN_LOWER); [reflexivity | exact IH].
Qed.

Lemma has_russian_contains (s : str) :
  has_russian s = true <-> contains_letter s.
Proof.
  unfold has_russian, contains_letter. rewrite existsb_exists.
  split; intros (c & Hin & Hc); exists c; split; try exact Hin.
  - rewrite <- russian_class_all. exact Hc.
  - rewrite russian_class_all. exact Hc.
Qed.

(** An iteration that returns has moved one or two places on. *)
Lemma step_advance (text : str) (st st' : state) :
  step text st = Returns st' ->
  pos st' = pos st + 1 \/ pos st' = pos st + 2.
Proof.
  unfold step. intros H.
  repeat match type of H with
         | context [bind ?m _] => destruct m; cbn [bind] in H
         | context [if ?b then _ else _] => destruct b
         end;
    try discriminate H; injection H as <-; cbn [pos]; auto.
Qed.

(** The index of the loop never goes below zero. *)
Lemma run_pos_nonneg (text : str) (n : nat) (st0 st : state) :
  0 <= pos st0 -> run n text st0 = Returns st -> 0 <= pos st.
Proof.
  revert st0. induction n as [| n IH]; intros st0 H0 Hrun.
  - cbn [run] in Hrun. injection Hrun as <-. exact H0.
  - cbn [run] in Hrun. destruct (step text st0) as [st1 | |] eqn:Hstep;
      cbn [bind] in Hrun; try discriminate Hrun.
    apply (IH st1); [| exact Hrun].
    destruct (step_advance text st0 st1 Hstep); lia.
Qed.

(* ================================================================== *)
(** * The properties of the specification *)

(** C1 (merge key-set law). For a well-formed incoming tree [i] and any
    existing tree [e]: when both are mappings the result is a mapping with
    exactly the keys of [i], in the order of [i]; under a key of [i] it holds
    the recursive merge when [e] has the key and the incoming value
    otherwise, and it holds nothing under any other key, so a key only [e]
    has does not survive. When the two values have different types the
    incoming one is returned whole. Hence, at every path, the result holds a
    mapping exactly where [i] does and with the keys of [i] ([same_keys]). *)
Theorem merge_key_set (i e : json) :
  wf i = true ->
  (forall a r, i = JObj a -> e = JObj r ->
     exists m,
       merge_recursive i e = JObj m
       /\ keys m = keys a
       /\ forall k,
            dict_get k m
            = match dict_get k a with
              | Some v => Some match dict_get k r with
                               | Some x => merge_recursive v x
                               | None => v
                               end
              | None => None
              end)
  /\ (kind_of i <> kind_of e -> merge_recursive i e = i)
  /\ same_keys i (merge_recursive i e).
Proof.
  intros Hwf. split; [| split].
  - intros a r -> ->. destruct (wf_obj_inv _ Hwf) as [Hd _].
    eexists. split; [apply merge_objects; exact Hd |]. split.
    + unfold keys. rewrite map_map. reflexivity.
    + intros k. rewrite (dict_get_map (merged_value r)).
      destruct (dict_get k a); reflexivity.
  - apply merge_mismatch.
  - apply merge_same_keys. exact Hwf.
Qed.

(** C2 (translation-preservation and source-wins laws). For an incoming
    string [s] and any existing value [e]: if [s] holds a letter of the
    alphabet the merge returns [s]; if it holds none and [e] is a string the
    merge returns [e]; if it holds none and [e] is not a string the merge
    returns [s]. *)
Theorem merge_string_leaf (s : str) (e : json) :
  (contains_letter s -> merge_recursive (JStr s) e = JStr s)
  /\ (~ contains_letter s ->
      forall t, e = JStr t -> merge_recursive (JStr s) e = JStr t)
  /\ (~ contains_letter s ->
      kind_of e <> KStr -> merge_recursive (JStr s) e = JStr s).
Proof.
  rewrite <- has_russian_contains. cbn [merge_recursive].
  destruct (has_russian s); split; [| split | | split].
  - reflexivity.
  - intros H. exfalso. apply H. reflexivity.
  - intros H. exfalso. apply H. reflexivity.
  - discriminate.
  - intros _ t ->. reflexivity.
  - intros _ Hk. destruct e; try reflexivity. exfalso. apply Hk. reflexivity.
Qed.

(** C3 (idempotence). On every well-formed document [fix_value] returns a
    document, and applied to that document it returns it unchanged; a string
    leaf is the case [d = JStr s], where [fix_value] is
    [fix_sentence_case]. *)
Theorem normalization_idempotent (d : json) :
  wf d = true ->
  exists d', fix_value d = Returns d' /\ fix_value d' = Returns d'.
Proof.
  intros Hwf. exists (normalize d). split.
  - apply fix_value_normalize. exact Hwf.
  - rewrite fix_value_normalize by (apply wf_normalize; exact Hwf).
    rewrite normalize_idempotent. reflexivity.
Qed.

(** C4, as the code has it. The index of the loop is never negative.
    When an iteration of the loop reads '.', '!' or '?' and the next
    character is a space or a tab, it appends the punctuation and sets
    [at_sentence_start], unless the output emitted so far ends in a letter
    of the alphabet that is the whole output or follows a space, a tab, '.',
    '!' or '?': then the flag keeps its value. No other character before the
    letter (a newline, a comma, a bracket) makes an abbreviation. A
    punctuation character that follows the lead-in marker read by the loop
    is not read itself: it is copied with the marker, and the flag keeps
    its value. *)
Theorem sentence_boundary_look_back (text : str) (st : state) :
  (forall n, run n text initial = Returns st -> 0 <= pos st)
  /\ (0 <= pos st ->
      boundary_rule space_or_terminator text st
      /\ (forall d,
            getitem text (pos st) = Returns section_sign ->
            getitem text (pos st + 1) = Returns d ->
            step text st
            = Returns (mkState (pos st + 2) (at_sentence_start st)
                         (result st ++ [section_sign; d])))).
Proof.
  split.
  { intros n Hrun. apply (run_pos_nonneg text n initial st); [| exact Hrun].
    cbn [pos initial]. lia. }
  intros Hpos. split.
  - intros c h Hc Hterm Hh Hblank.
    destruct (getitem_split text (pos st) c Hpos Hc)
      as (pre & rest & -> & Hlen).
    symmetry in Hlen.
    destruct (getitem_next pre c rest (pos st) h Hlen Hh) as (rest2 & ->).
    destruct (terminator_tests c Hterm) as (Hnb & _ & Hsign).
    rewrite (step_emit pre c (h :: rest2) st Hlen (or_introl Hsign)).
    unfold emit.
    assert (Hnl : (c =? newline)%N = false).
    { destruct (c =? newline)%N eqn:E; [| reflexivity].
      apply N.eqb_eq in E. subst c. discriminate. }
    rewrite Hnl, Hterm. cbn [followed_by_blank fst snd]. rewrite Hblank.
    rewrite boundary_flag_lone_letter, Hlen. reflexivity.
  - intros d Hc Hd.
    destruct (getitem_split text (pos st) _ Hpos Hc)
      as (pre & rest & -> & Hlen).
    symmetry in Hlen.
    destruct (getitem_next pre _ rest (pos st) d Hlen Hd) as (rest2 & ->).
    rewrite (step_pair pre d rest2 st Hlen), Hlen. reflexivity.
Qed.

(** C5, as the code has it. An uppercase letter of the alphabet read away
    from a sentence start is emitted in lowercase exactly when a lowercase
    letter of the alphabet stands between it and the next space, tab or
    newline (or the end of the text), and unchanged otherwise; what stands
    before the letter in its word is not looked at. The flag is cleared
    either way. *)
Theorem uppercase_letter_rule (text : str) (st : state) :
  case_rule lower_after text st
  /\ (forall c, in_chars c RUSSIAN_UPPER = true -> lower c <> c)
  /\ (forall pre rest,
        lower_after pre rest = true
        <-> exists w l tail,
              rest = w ++ l :: tail
              /\ Forall (fun x => in_chars x blanks_or_newline = false) w
              /\ in_chars l RUSSIAN_LOWER = true).
Proof.
  split; [| split].
  - intros pre c rest -> Hpos Hup Hstart.
    pose proof (upper_letter_is_letter c Hup) as Hall.
    pose proof (russian_letter_facts c Hall) as (Hs & Hnl & Ht & Hb & _).
    rewrite (step_emit pre c rest st Hpos (or_introl Hs)).
    unfold emit, lower_after.
    rewrite Hnl, Ht, Hb, Hall, Hstart, Hup, Hpos. reflexivity.
  - intros c Hup.
    pose proof (upper_letter_is_letter c Hup) as Hall.
    pose proof (russian_letter_facts c Hall)
      as (_ & _ & _ & _ & _ & _ & _ & _ & _ & Fu & _).
    destruct (Fu Hup) as (Hlu & _). congruence.
  - intros pre rest. apply word_has_lower_spec.
Qed.

(** C6, as the code has it. When the loop stands on the lead-in marker and
    a character [d] follows, the iteration appends the two characters
    unchanged, moves two places on and leaves [at_sentence_start] as it
    was. (The two characters stay visible to the later look-ahead and
    look-back of other iterations.) *)
Theorem format_code_pair (text : str) (st : state) (d : char) :
  0 <= pos st ->
  getitem text (pos st) = Returns section_sign ->
  getitem text (pos st + 1) = Returns d ->
  step text st
  = Returns (mkState (pos st + 2) (at_sentence_start st)
               (result st ++ [section_sign; d])).
Proof.
  intros Hpos Hc Hd.
  destruct (getitem_split text (pos st) _ Hpos Hc) as (pre & rest & -> & Hlen).
  symmetry in Hlen.
  destruct (getitem_next pre _ rest (pos st) d Hlen Hd) as (rest2 & ->).
  rewrite (step_pair pre d rest2 st Hlen), Hlen. reflexivity.
Qed.

(** C7 (sequences). The merge of two sequences is a sequence as long as the
    incoming one: at an index both have it holds the merge of the two
    elements, at an index only the incoming one has it holds the incoming
    element, and it has no index beyond the incoming ones. *)
Theorem merge_sequences (a r : list json) :
  exists m,
    merge_recursive (JArr a) (JArr r) = JArr m
    /\ length m = length a
    /\ forall n : nat,
         nth_error m n
         = match nth_error a n with
           | Some x => Some match nth_error r n with
                            | Some y => merge_recursive x y
                            | None => x
                            end
           | None => None
           end.
Proof.
  exists (merge_lists merge_recursive a r). split; [reflexivity |].
  split; [apply merge_lists_length | apply merge_lists_nth].
Qed.

(** C8 (shape preservation). On every well-formed document [fix_value]
    returns a document of the same shape: the same keys in the same order at
    every mapping, the same length at every sequence, the same number,
    boolean and null leaves; only string leaves may differ. *)
Theorem normalization_preserves_shape (d : json) :
  wf d = true ->
  exists d', fix_value d = Returns d' /\ same_shape d d'.
Proof.
  intros Hwf. exists (normalize d).
  split; [apply fix_value_normalize; exact Hwf | apply normalize_same_shape].
Qed.

(** C9 (totality). [fix_sentence_case] returns on every string, with as
    many characters as it was given. On a string that ends in the lead-in
    marker the output ends in the marker, and the iteration that reads this
    last marker appends it alone and, the marker not being alphabetic,
    leaves [at_sentence_start] as it was. *)
Theorem fix_sentence_case_total (text : str) :
  (exists out, fix_sentence_case text = Returns out
               /\ length out = length text)
  /\ (forall pre, text = pre ++ [section_sign] ->
        (exists out, fix_sentence_case text = Returns (out ++ [section_sign]))
        /\ (forall st, pos st = len pre -> isalpha section_sign = false ->
              step text st
              = Returns (mkState (pos st + 1) (at_sentence_start st)
                           (result st ++ [section_sign])))).
Proof.
  pose proof (normalize_string_same_letters text) as Hsame.
  split; [| intros pre ->; split].
  - exists (normalize_string text).
    split; [apply fix_sentence_case_returns |].
    symmetry. exact (Forall2_length Hsame).
  - rewrite fix_sentence_case_returns.
    destruct (Forall2_app_inv_l _ _ Hsame) as (o1 & o2 & _ & Hlast & ->).
    inversion Hlast as [| ? x ? ? Hx Hnil]; subst.
    inversion Hnil; subst.
    destruct Hx as [-> | [Habs _]]; [eauto | discriminate].
  - intros st Hpos Halpha.
    rewrite (step_emit pre section_sign [] st Hpos (or_intror eq_refl)).
    unfold emit. rewrite Halpha, Hpos. reflexivity.
Qed.

(** C10 (merging a tree with itself). For every well-formed tree [t],
    [merge_recursive t t = t]. *)
Theorem merge_with_itself (t : json) : wf t = true -> merge_recursive t t = t.
Proof.
  induction t as [| b | x | s | items IH | entries IH] using json_induction;
    intros Hwf; try reflexivity.
  - cbn [merge_recursive]. destruct (has_russian s); reflexivity.
  - cbn [merge_recursive]. f_equal.
    pose proof (wf_arr_inv _ Hwf) as Hw. clear Hwf.
    induction items as [| v items IHitems]; [reflexivity |].
    inversion IH as [| ? ? IHv IHrest]; subst.
    inversion Hw as [| ? ? Hv Hrest]; subst.
    cbn [merge_lists]. fold (merge_lists merge_recursive).
    rewrite (IHv Hv), (IHitems IHrest Hrest). reflexivity.
  - destruct (wf_obj_inv _ Hwf) as [Hd Hw].
    rewrite merge_objects by exact Hd. f_equal.
    rewrite <- (map_id entries) at 2. apply map_ext_in.
    intros [k v] Hin. cbn [fst snd]. unfold merged_value.
    rewrite (dict_get_in entries k v Hd Hin).
    rewrite Forall_forall in IH, Hw.
    pose proof (IH (k, v) Hin (Hw (k, v) Hin)) as E. cbn [snd] in E.
    rewrite E. reflexivity.
Qed.

(* ================================================================== *)
(** * Further properties of the two scripts *)

(** ** The normalizer *)

Lemma emit_case_variant (res : list char) (start : bool) (c : char) (rest : str) :
  case_variant c (fst (emit res start c rest)).
Proof.
  unfold emit, case_variant.
  destruct (c =? newline)%N; [left; reflexivity |].
  destruct (in_chars c terminators); [left; reflexivity |].
  destruct (in_chars c blanks); [left; reflexivity |].
  destruct (in_chars c RUSSIAN_ALL) eqn:Hc.
  - destruct start; [right; cbn [fst]; auto |].
    destruct (in_chars c RUSSIAN_UPPER); [| left; reflexivity].
    destruct (word_has_lower rest); [right; cbn [fst]; auto |].
    left; reflexivity.
  - destruct (isalpha c); left; reflexivity.
Qed.

Lemma scan_case_variants (rest : str) (res : list char) (start : bool) :
  Forall2 case_variant rest (scan res start rest).
Proof.
  remember (length rest) as m eqn:Hm.
  assert (Hle : (length rest <= m)%nat) by lia. clear Hm.
  revert rest res start Hle. induction m as [| m IH]; intros rest res start Hle.
  { destruct rest; [constructor | cbn [length] in Hle; lia]. }
  destruct (scan_cases rest) as [-> | [(d & rest2 & ->) | (c & rest1 & -> & Hc)]].
  - constructor.
  - rewrite scan_pair. cbn [length] in Hle.
    repeat constructor; try (left; reflexivity). apply IH. lia.
  - rewrite (scan_plain _ _ _ _ Hc). cbn [length] in Hle. constructor.
    + apply emit_case_variant.
    + apply IH. lia.
Qed.

(** X1. Whatever the input, the output has a character for each character
    of the input; a character that is not a letter of the alphabet is
    copied, and a letter comes out as itself, its uppercase or its lowercase
    form. *)
Theorem only_letter_case_changes (text : str) :
  exists out,
    fix_sentence_case text = Returns out
    /\ Forall2 case_variant text out
    /\ (forall n c, nth_error text n = Some c ->
          in_chars c RUSSIAN_ALL = false -> nth_error out n = Some c).
Proof.
  assert (Hv : Forall2 case_variant text (normalize_string text)).
  { unfold normalize_string. destruct (has_russian text).
    - apply scan_case_variants.
    - induction text; constructor; [left; reflexivity | assumption]. }
  exists (normalize_string text).
  split; [apply fix_sentence_case_returns |]. split; [exact Hv |].
  induction Hv as [| c c' text out Hc Hrest IH]; intros n x Hn Hx.
  - destruct n; discriminate.
  - destruct n as [| n]; cbn [nth_error] in *.
    + injection Hn as ->. destruct Hc as [-> | [Habs _]];
        [reflexivity | congruence].
    + eapply IH; eassumption.
Qed.

Lemma word_has_lower_none (rest : str) :
  existsb (fun c => in_chars c RUSSIAN_LOWER) rest = false ->
  word_has_lower rest = false.
Proof.
  induction rest as [| c rest IH]; [reflexivity |].
  cbn [existsb word_has_lower]. intros H. apply orb_false_iff in H.
  destruct H as [-> H]. destruct (in_chars c blanks_or_newline); auto.
Qed.

Lemma emit_without_lower (res : list char) (start : bool) (c : char) (rest : str) :
  in_chars c RUSSIAN_LOWER = false ->
  existsb (fun x => in_chars x RUSSIAN_LOWER) rest = false ->
  fst (emit res start c rest) = c.
Proof.
  intros Hc Hrest. unfold emit.
  destruct (c =? newline)%N; [reflexivity |].
  destruct (in_chars c terminators); [reflexivity |].
  destruct (in_chars c blanks); [reflexivity |].
  destruct (in_chars c RUSSIAN_ALL) eqn:Hall.
  - pose proof (russian_letter_facts c Hall)
      as (_ & _ & _ & _ & _ & _ & _ & _ & _ & Fu & Fl).
    destruct (in_chars c RUSSIAN_UPPER) eqn:Hu.
    + destruct (Fu eq_refl) as (_ & _ & _ & Hup).
      destruct start; [exact Hup |].
      rewrite (word_has_lower_none rest Hrest). reflexivity.
    + destruct (Fl eq_refl) as (Hlow & _). congruence.
  - destruct (isalpha c); reflexivity.
Qed.

Lemma scan_without_lower (rest : str) (res : list char) (start : bool) :
  existsb (fun c => in_chars c RUSSIAN_LOWER) rest = false ->
  scan res start rest = rest.
Proof.
  remember (length rest) as m eqn:Hm.
  assert (Hle : (length rest <= m)%nat) by lia. clear Hm.
  revert rest res start Hle. induction m as [| m IH]; intros rest res start Hle Hno.
  { destruct rest; [reflexivity | cbn [length] in Hle; lia]. }
  destruct (scan_cases rest) as [-> | [(d & rest2 & ->) | (c & rest1 & -> & Hc)]].
  - reflexivity.
  - rewrite scan_pair. cbn [length existsb] in *.
    apply orb_false_iff in Hno. destruct Hno as [_ Hno].
    apply orb_false_iff in Hno. destruct Hno as [_ Hno].
    rewrite IH by (lia || exact Hno). reflexivity.
  - rewrite (scan_plain _ _ _ _ Hc). cbn [length existsb] in *.
    apply orb_false_iff in Hno. destruct Hno as [Hc0 Hno].
    rewrite (emit_without_lower res start c rest1 Hc0 Hno).
    rewrite IH by (lia || exact Hno). reflexivity.
Qed.

(** X2. A string with no lowercase letter of the alphabet comes back
    unchanged, so all-capital text is never touched; and the loop itself
    (without the early return of lines 30-31) returns such a string
    unchanged, in particular a string with no letter of the alphabet at
    all. *)
Theorem text_without_lowercase_unchanged (text : str) :
  existsb (fun c => in_chars c RUSSIAN_LOWER) text = false ->
  fix_sentence_case text = Returns text
  /\ loop (length text) text initial = Returns text.
Proof.
  intros Hno. split.
  - rewrite fix_sentence_case_returns. unfold normalize_string.
    destruct (has_russian text); [| reflexivity].
    rewrite (scan_without_lower text [] true Hno). reflexivity.
  - pose proof (loop_scan text [] initial (length text) eq_refl (le_n _))
      as Hloop.
    cbn [result at_sentence_start initial app] in Hloop.
    rewrite Hloop, (scan_without_lower text [] true Hno). reflexivity.
Qed.

Lemma boundary_flag_true (res : list char) : boundary_flag res true = true.
Proof.
  assert (E : res = rev (rev res)) by (symmetry; apply rev_involutive).
  destruct (rev res) as [| c t]; cbn [rev] in E; subst res.
  - reflexivity.
  - rewrite boundary_flag_lone_letter.
    destruct (lone_letter space_or_terminator (rev t)); reflexivity.
Qed.

Lemma emit_neutral (res : list char) (p : char) (rest : str) :
  neutral p = true -> emit res true p rest = (p, true).
Proof.
  unfold neutral, reads_as_letter, emit. intros H.
  apply andb_true_iff in H. destruct H as [_ H].
  destruct (p =? newline)%N; [reflexivity |].
  destruct (in_chars p terminators).
  { rewrite boundary_flag_true. destruct (followed_by_blank rest); reflexivity. }
  destruct (in_chars p blanks); [reflexivity |].
  cbn [negb andb] in H. apply negb_true_iff, orb_false_iff in H.
  destruct H as [-> ->]. reflexivity.
Qed.

Lemma neutral_not_sign (p : char) :
  neutral p = true -> (p =? section_sign)%N = false.
Proof.
  unfold neutral. intros H. apply andb_true_iff in H.
  destruct H as [H _]. apply negb_true_iff. exact H.
Qed.

Lemma emit_letter_at_start (res : list char) (c : char) (rest : str) :
  in_chars c RUSSIAN_ALL = true -> emit res true c rest = (upper c, false).
Proof.
  intros Hc. pose proof (russian_letter_facts c Hc) as (_ & Hnl & Ht & Hb & _).
  unfold emit. rewrite Hnl, Ht, Hb, Hc. reflexivity.
Qed.

(** With the flag set, neutral characters are copied and the letter that
    follows them is capitalised. *)
Lemma scan_neutral_prefix (pre : str) (res : list char) (c : char) (rest : str) :
  forallb neutral pre = true ->
  in_chars c RUSSIAN_ALL = true ->
  scan res true (pre ++ c :: rest)
  = pre ++ upper c :: scan (res ++ pre ++ [upper c]) false rest.
Proof.
  intros Hpre Hc. revert res. induction pre as [| p pre IH]; intros res.
  - pose proof (russian_letter_facts c Hc) as (Hs & _).
    cbn [app]. rewrite (scan_plain _ _ _ _ (or_introl Hs)).
    rewrite emit_letter_at_start by exact Hc. reflexivity.
  - cbn [forallb] in Hpre. apply andb_true_iff in Hpre.
    destruct Hpre as [Hp Hpre]. cbn [app].
    rewrite (scan_plain _ _ _ _ (or_introl (neutral_not_sign p Hp))).
    rewrite (emit_neutral res p _ Hp). cbn [fst snd].
    rewrite (IH Hpre). rewrite <- app_assoc. reflexivity.
Qed.

Lemma has_russian_letter (text : str) (c : char) :
  In c text -> in_chars c RUSSIAN_ALL = true -> has_russian text = true.
Proof. intros Hin Hc. apply has_russian_contains. exists c. auto. Qed.

(** X3. When nothing but neutral characters (digits, spaces, punctuation,
    newlines) stands before the first letter of the alphabet, that letter
    comes out in uppercase and the characters before it are copied. *)
Theorem first_letter_capitalised (pre : str) (c : char) (rest : str) :
  forallb neutral pre = true ->
  in_chars c RUSSIAN_ALL = true ->
  exists out,
    fix_sentence_case (pre ++ c :: rest) = Returns (pre ++ upper c :: out).
Proof.
  intros Hpre Hc. rewrite fix_sentence_case_returns. unfold normalize_string.
  rewrite (has_russian_letter (pre ++ c :: rest) c)
    by (try apply in_elt; exact Hc).
  rewrite (scan_neutral_prefix pre [] c rest Hpre Hc). eauto.
Qed.

Lemma has_russian_same_letters (a b : str) :
  Forall2 same_letter a b -> has_russian a = has_russian b.
Proof.
  induction 1 as [| x y a b Hxy Hab IH]; [reflexivity |].
  unfold has_russian in *. cbn [existsb]. rewrite IH, !russian_class_all.
  destruct (same_letter_tests x y Hxy) as (_ & _ & _ & _ & _ & ->).
  reflexivity.
Qed.

(** X4. The output holds a letter of the alphabet exactly when the input
    does: [has_russian], the test the merge applies to a string, gives the
    same answer before and after normalization. *)
Theorem normalization_keeps_has_russian (text : str) :
  exists out,
    fix_sentence_case text = Returns out
    /\ has_russian out = has_russian text.
Proof.
  exists (normalize_string text). split; [apply fix_sentence_case_returns |].
  symmetry. apply has_russian_same_letters, normalize_string_same_letters.
Qed.

(** Over a stretch of text without the lead-in marker the scan answers
    character for character, whatever follows. *)
Lemma scan_prefix (head : str) (res : list char) (start : bool) (tail : str) :
  forallb (fun c => negb (is_section_sign c)) head = true ->
  exists out start',
    Forall2 same_letter head out
    /\ scan res start (head ++ tail) = out ++ scan (res ++ out) start' tail.
Proof.
  revert res start. induction head as [| c head IH]; intros res start Hno.
  - exists [], start. split; [constructor |]. rewrite app_nil_r. reflexivity.
  - cbn [forallb] in Hno. apply andb_true_iff in Hno.
    destruct Hno as [Hc Hno]. apply negb_true_iff in Hc.
    unfold is_section_sign in Hc. cbn [app].
    rewrite (scan_plain _ _ _ _ (or_introl Hc)).
    destruct (IH (res ++ [fst (emit res start c (head ++ tail))])
                (snd (emit res start c (head ++ tail))) Hno)
      as (out & start' & Hout & ->).
    exists (fst (emit res start c (head ++ tail)) :: out), start'.
    split; [constructor; [apply emit_same_letter | exact Hout] |].
    rewrite <- app_assoc. reflexivity.
Qed.

(** X5. A newline starts a sentence: after a newline read by the loop (no
    lead-in marker before it) and any neutral characters, the next letter of
    the alphabet comes out in uppercase. *)
Theorem letter_after_newline (head pre : str) (c : char) (rest : str) :
  forallb (fun x => negb (is_section_sign x)) head = true ->
  forallb neutral pre = true ->
  in_chars c RUSSIAN_ALL = true ->
  exists out_head out,
    length out_head = length head
    /\ fix_sentence_case (head ++ newline :: pre ++ c :: rest)
       = Returns (out_head ++ newline :: pre ++ upper c :: out).
Proof.
  intros Hhead Hpre Hc. rewrite fix_sentence_case_returns.
  unfold normalize_string.
  rewrite (has_russian_letter (head ++ newline :: pre ++ c :: rest) c)
    by (try (apply in_or_app; right; right; apply in_elt); exact Hc).
  destruct (scan_prefix head [] true (newline :: pre ++ c :: rest) Hhead)
    as (out & start' & Hout & ->).
  exists out. eexists. split; [symmetry; exact (Forall2_length Hout) |].
  rewrite (scan_plain _ _ newline _ (or_introl eq_refl)).
  change (emit ([] ++ out) start' newline (pre ++ c :: rest))
    with (newline, true).
  cbn [fst snd]. rewrite (scan_neutral_prefix pre _ c rest Hpre Hc).
  reflexivity.
Qed.

Lemma blank_tests (b : char) :
  in_chars b blanks = true ->
  (b =? section_sign)%N = false /\ (b =? newline)%N = false
  /\ in_chars b terminators = false.
Proof.
  intros H. apply existsb_exists in H. destruct H as (x & Hin & Heq).
  apply N.eqb_eq in Heq. subst x. cbn [blanks In] in Hin.
  destruct Hin as [<- | [<- | []]]; vm_compute; auto.
Qed.

Lemma blank_is_neutral (b : char) : in_chars b blanks = true -> neutral b = true.
Proof.
  intros H. destruct (blank_tests b H) as (Hs & _).
  unfold neutral, reads_as_letter. rewrite Hs, H.
  cbn [negb andb]. rewrite andb_false_r. reflexivity.
Qed.

Lemma same_letter_space_or_terminator (x x' : char) :
  same_letter x x' -> space_or_terminator x' = space_or_terminator x.
Proof.
  intros [-> | [Hx Hx']]; [reflexivity |].
  assert (G : forall c, in_chars c RUSSIAN_ALL = true ->
                        space_or_terminator c = false).
  { clear. intros c Hc.
    pose proof (russian_letter_facts c Hc) as (_ & _ & Ht & Hb & _).
    unfold space_or_terminator.
    change blanks_or_terminators with (blanks ++ terminators).
    unfold in_chars. rewrite existsb_app. apply orb_false_iff.
    split; [exact Hb | exact Ht]. }
  rewrite (G x Hx), (G x' Hx'). reflexivity.
Qed.

(** X6. The end of a sentence. Let a sentence-ending punctuation
    character be preceded by at least two characters [x] and [y] (with no
    lead-in marker up to the punctuation), where [y], right before the
    punctuation, is not a letter of the alphabet, or [x], right before [y],
    is not a space, a tab, '.', '!' or '?'. Let the punctuation be followed
    by a space or a tab, then by neutral characters only, then by a letter
    of the alphabet. That letter comes out in uppercase, and the characters
    from the punctuation to the letter are copied. *)
Theorem letter_after_sentence_end
    (head : str) (x y t b : char) (pre : str) (c : char) (rest : str) :
  forallb (fun z => negb (is_section_sign z)) (head ++ [x; y]) = true ->
  in_chars y RUSSIAN_ALL = false \/ space_or_terminator x = false ->
  in_chars t terminators = true ->
  in_chars b blanks = true ->
  forallb neutral pre = true ->
  in_chars c RUSSIAN_ALL = true ->
  exists out_head out,
    length out_head = length (head ++ [x; y])
    /\ fix_sentence_case (head ++ x :: y :: t :: b :: pre ++ c :: rest)
       = Returns (out_head ++ t :: b :: pre ++ upper c :: out).
Proof.
  intros Hhead Hxy Ht Hb Hpre Hc. rewrite fix_sentence_case_returns.
  unfold normalize_string.
  rewrite (has_russian_letter _ c)
    by (try (apply in_or_app; right; do 4 right; apply in_elt); exact Hc).
  replace (head ++ x :: y :: t :: b :: pre ++ c :: rest)
    with ((head ++ [x; y]) ++ t :: (b :: pre) ++ c :: rest)
    by (rewrite <- app_assoc; reflexivity).
  destruct (scan_prefix (head ++ [x; y]) [] true
              (t :: (b :: pre) ++ c :: rest) Hhead)
    as (out & start' & Hout & ->).
  exists out. eexists. split; [symmetry; exact (Forall2_length Hout) |].
  destruct (terminator_tests t Ht) as (_ & _ & Hts).
  rewrite (scan_plain _ _ t _ (or_introl Hts)).
  assert (Hflag : emit ([] ++ out) start' t ((b :: pre) ++ c :: rest)
                  = (t, true)).
  { unfold emit.
    assert (Hnl : (t =? newline)%N = false).
    { destruct (t =? newline)%N eqn:E; [| reflexivity].
      apply N.eqb_eq in E. subst t. discriminate. }
    rewrite Hnl, Ht. cbn [app followed_by_blank]. rewrite Hb.
    rewrite boundary_flag_lone_letter.
    destruct (Forall2_app_inv_l _ _ Hout) as (o1 & o2 & _ & Hlast & ->).
    inversion Hlast as [| ? x' ? l2 Hx' Hl2]; subst.
    inversion Hl2 as [| ? y' ? l3 Hy' Hl3]; subst.
    inversion Hl3; subst.
    unfold lone_letter. rewrite rev_app_distr. cbn [rev app].
    rewrite (same_letter_space_or_terminator x x' Hx').
    destruct (same_letter_tests y y' Hy') as (_ & _ & _ & _ & _ & ->).
    destruct Hxy as [-> | ->]; [reflexivity |].
    rewrite andb_false_r. reflexivity. }
  rewrite Hflag. cbn [fst snd].
  assert (Hbpre : forallb neutral (b :: pre) = true).
  { cbn [forallb]. rewrite (blank_is_neutral b Hb), Hpre. reflexivity. }
  rewrite (scan_neutral_prefix (b :: pre) _ c rest Hbpre Hc).
  reflexivity.
Qed.

(** X7. An abbreviation at the head of the text: after a single letter of
    the alphabet, a sentence-ending punctuation character and a space or a
    tab, no sentence starts, and a lowercase letter that follows stays
    lowercase. *)
Theorem lowercase_after_lone_letter (l t b c : char) (rest : str) :
  in_chars l RUSSIAN_ALL = true ->
  in_chars t terminators = true ->
  in_chars b blanks = true ->
  in_chars c RUSSIAN_LOWER = true ->
  exists out,
    fix_sentence_case (l :: t :: b :: c :: rest)
    = Returns (upper l :: t :: b :: c :: out).
Proof.
  intros Hl Ht Hb Hc. rewrite fix_sentence_case_returns.
  unfold normalize_string.
  rewrite (has_russian_letter _ l) by (try (left; reflexivity); exact Hl).
  pose proof (russian_letter_facts l Hl) as (Hls & _ & _ & _ & _ & Hul & _).
  destruct (terminator_tests t Ht) as (_ & _ & Hts).
  destruct (blank_tests b Hb) as (Hbs & Hbn & Hbt).
  pose proof (lower_letter_is_letter c Hc) as Hcall.
  pose proof (russian_letter_facts c Hcall)
    as (Hcs & Hcn & Hct & Hcb & _ & _ & _ & _ & _ & Fu & _).
  rewrite (scan_plain _ _ l _ (or_introl Hls)).
  rewrite emit_letter_at_start by exact Hl. cbn [fst snd app].
  rewrite (scan_plain _ _ t _ (or_introl Hts)).
  assert (Et : emit [upper l] false t (b :: c :: rest) = (t, false)).
  { unfold emit.
    assert (Hnl : (t =? newline)%N = false).
    { destruct (t =? newline)%N eqn:E; [| reflexivity].
      apply N.eqb_eq in E. subst t. discriminate. }
    rewrite Hnl, Ht. cbn [followed_by_blank]. rewrite Hb.
    rewrite boundary_flag_lone_letter. unfold lone_letter. cbn [rev app].
    rewrite Hul. reflexivity. }
  rewrite Et. cbn [fst snd app].
  rewrite (scan_plain _ _ b _ (or_introl Hbs)).
  assert (Eb : emit [upper l; t] false b (c :: rest) = (b, false)).
  { unfold emit. rewrite Hbn, Hbt, Hb. reflexivity. }
  rewrite Eb. cbn [fst snd app].
  rewrite (scan_plain _ _ c _ (or_introl Hcs)).
  assert (Ec : emit [upper l; t; b] false c rest = (c, false)).
  { unfold emit. rewrite Hcn, Hct, Hcb, Hcall.
    destruct (in_chars c RUSSIAN_UPPER) eqn:Hu; [| reflexivity].
    destruct (Fu eq_refl) as (_ & _ & Habs & _). congruence. }
  rewrite Ec. cbn [fst snd]. eauto.
Qed.

(** X8. Inside the text an iteration never raises: it moves one or two
    places on, stays within the text, keeps what was emitted and appends as
    many characters as it has read, so the output is as long as the text
    read so far, which is what the look-back index of line 69 relies on. *)
Theorem step_in_range (text : str) (st : state) :
  0 <= pos st < len text ->
  exists st' new,
    step text st = Returns st'
    /\ (pos st' = pos st + 1 \/ pos st' = pos st + 2)
    /\ pos st' <= len text
    /\ result st' = result st ++ new
    /\ len new = pos st' - pos st.
Proof.
  intros Hpos.
  destruct (getitem_in_range text (pos st) Hpos) as [c Hc].
  destruct (getitem_split text (pos st) c (proj1 Hpos) Hc)
    as (pre & rest & -> & Hlen).
  symmetry in Hlen. pose proof (len_nonneg rest) as Hrest.
  assert (Hplain : (c =? section_sign)%N = false \/ rest = [] ->
            exists st' new,
              step (pre ++ c :: rest) st = Returns st'
              /\ (pos st' = pos st + 1 \/ pos st' = pos st + 2)
              /\ pos st' <= len (pre ++ c :: rest)
              /\ result st' = result st ++ new
              /\ len new = pos st' - pos st).
  { intros Hplain. rewrite (step_emit pre c rest st Hlen Hplain).
    eexists. eexists. split; [reflexivity |].
    cbn [pos result]. rewrite len_app, len_cons.
    split; [left; lia |]. split; [lia |]. split; [reflexivity |].
    rewrite len_cons. change (len []) with 0. lia. }
  destruct (c =? section_sign)%N eqn:Hs; [| auto].
  destruct rest as [| d rest2]; [auto |].
  apply N.eqb_eq in Hs. subst c.
  rewrite (step_pair pre d rest2 st Hlen).
  exists (mkState (len pre + 2) (at_sentence_start st)
            (result st ++ [section_sign; d])), [section_sign; d].
  split; [reflexivity |].
  cbn [pos result]. rewrite len_app, !len_cons.
  pose proof (len_nonneg rest2).
  split; [right; lia |]. split; [lia |]. split; [reflexivity |].
  change (len []) with 0. lia.
Qed.

(** X9. Sentence-ending punctuation that is the last character of the text,
    or is followed by anything but a space or a tab, is copied and leaves
    [at_sentence_start] as it was (no boundary inside "3.14" or before a
    newline). *)
Theorem punctuation_without_blank (text : str) (st : state) (c : char) :
  0 <= pos st ->
  getitem text (pos st) = Returns c ->
  in_chars c terminators = true ->
  (pos st + 1 = len text
   \/ exists h, getitem text (pos st + 1) = Returns h
                /\ in_chars h blanks = false) ->
  step text st
  = Returns (mkState (pos st + 1) (at_sentence_start st) (result st ++ [c])).
Proof.
  intros Hpos Hc Hterm Hnext.
  destruct (getitem_split text (pos st) c Hpos Hc) as (pre & rest & -> & Hlen).
  symmetry in Hlen.
  destruct (terminator_tests c Hterm) as (_ & _ & Hsign).
  rewrite (step_emit pre c rest st Hlen (or_introl Hsign)).
  assert (Hnl : (c =? newline)%N = false).
  { destruct (c =? newline)%N eqn:E; [| reflexivity].
    apply N.eqb_eq in E. subst c. discriminate. }
  assert (Hfb : followed_by_blank rest = false).
  { destruct Hnext as [Hend | (h & Hh & Hblank)].
    - rewrite len_app, len_cons in Hend.
      destruct rest; [reflexivity |]. rewrite len_cons in Hend.
      pose proof (len_nonneg rest). lia.
    - destruct (getitem_next pre c rest (pos st) h Hlen Hh) as (rest2 & ->).
      exact Hblank. }
  unfold emit. rewrite Hnl, Hterm, Hfb, Hlen. reflexivity.
Qed.

(** ** The alphabet of the two scripts *)

(** X10. The character class of [RUSSIAN_RE] (both scripts) matches exactly
    the letters of [RUSSIAN_UPPER] and [RUSSIAN_LOWER], no letter is in both
    sets, and so [has_russian] holds of a string exactly when the string
    has a character in one of the two sets. *)
Theorem alphabet_agreement :
  (forall c, russian_class c = true
             <-> In c RUSSIAN_UPPER \/ In c RUSSIAN_LOWER)
  /\ (forall c, ~ (In c RUSSIAN_UPPER /\ In c RUSSIAN_LOWER))
  /\ (forall s, has_russian s = true
                <-> exists c, In c s
                              /\ (In c RUSSIAN_UPPER \/ In c RUSSIAN_LOWER)).
Proof.
  assert (Hmem : forall c l, in_chars c l = true <-> In c l).
  { intros c l. unfold in_chars. rewrite existsb_exists. split.
    - intros (x & Hin & Hx). apply N.eqb_eq in Hx. subst. exact Hin.
    - intros Hin. exists c. split; [exact Hin | apply N.eqb_refl]. }
  assert (Hclass : forall c, russian_class c = true
                             <-> In c RUSSIAN_UPPER \/ In c RUSSIAN_LOWER).
  { intros c. rewrite russian_class_all, Hmem. unfold RUSSIAN_ALL.
    apply in_app_iff. }
  split; [exact Hclass |]. split.
  - intros c [Hu Hl]. apply Hmem in Hu.
    pose proof (upper_letter_is_letter c Hu) as Hall.
    pose proof (russian_letter_facts c Hall)
      as (_ & _ & _ & _ & _ & _ & _ & _ & _ & Fu & _).
    destruct (Fu Hu) as (_ & _ & Hno & _). apply Hmem in Hl. congruence.
  - intros s. unfold has_russian. rewrite existsb_exists.
    split; intros (c & Hin & Hc); exists c; split; try exact Hin;
      apply Hclass; exact Hc.
Qed.

(** ** The merge *)

Lemma same_shape_refl (v : json) : same_shape v v.
Proof.
  induction v as [| b | x | s | items IH | entries IH] using json_induction;
    try constructor.
  - induction IH; constructor; auto.
  - induction IH; constructor; auto.
Qed.

Lemma merge_same (t : json) : wf t = true -> merge_recursive t t = t.
Proof.
  induction t as [| b | x | s | items IH | entries IH] using json_induction;
    intros Hwf; try reflexivity.
  - cbn [merge_recursive]. destruct (has_russian s); reflexivity.
  - cbn [merge_recursive]. f_equal.
    pose proof (wf_arr_inv _ Hwf) as Hw. clear Hwf.
    induction items as [| v items IHitems]; [reflexivity |].
    inversion IH as [| ? ? IHv IHrest]; subst.
    inversion Hw as [| ? ? Hv Hrest]; subst.
    cbn [merge_lists]. fold (merge_lists merge_recursive).
    rewrite (IHv Hv), (IHitems IHrest Hrest). reflexivity.
  - destruct (wf_obj_inv _ Hwf) as [Hd Hw].
    rewrite merge_objects by exact Hd. f_equal.
    rewrite <- (map_id entries) at 2. apply map_ext_in.
    intros [k v] Hin. cbn [fst snd]. unfold merged_value.
    rewrite (dict_get_in entries k v Hd Hin).
    rewrite Forall_forall in IH, Hw.
    pose proof (IH (k, v) Hin (Hw (k, v) Hin)) as E. cbn [snd] in E.
    rewrite E. reflexivity.
Qed.

(** X11. The merge differs from the incoming tree in string leaves only:
    the result has the keys, the key order, the sequence lengths and the
    number, boolean and null leaves of the incoming tree, whatever the
    existing tree holds. *)
Theorem merge_changes_only_strings (i e : json) :
  wf i = true -> same_shape i (merge_recursive i e).
Proof.
  revert e.
  induction i as [| b | x | s | items IH | entries IH] using json_induction;
    intros e Hwf.
  - destruct e; constructor.
  - destruct e; constructor.
  - destruct e; constructor.
  - cbn [merge_recursive]. destruct (has_russian s); [constructor |].
    destruct e; constructor.
  - destruct e as [| | | | r |]; try apply same_shape_refl.
    cbn [merge_recursive]. apply shape_arr.
    pose proof (wf_arr_inv _ Hwf) as Hw. clear Hwf.
    revert r. induction items as [| v items IHitems]; intros r;
      [constructor |].
    inversion IH as [| ? ? IHv IHrest]; subst.
    inversion Hw as [| ? ? Hv Hrest]; subst.
    destruct r as [| y r]; cbn [merge_lists];
      fold (merge_lists merge_recursive); constructor; auto.
    apply same_shape_refl.
  - destruct e as [| | | | | r]; try apply same_shape_refl.
    destruct (wf_obj_inv _ Hwf) as [Hd Hw].
    rewrite merge_objects by exact Hd. apply shape_obj.
    clear Hd Hwf. induction entries as [| [k v] entries IHentries];
      [constructor |].
    inversion IH as [| ? ? IHv IHrest]; subst.
    inversion Hw as [| ? ? Hv Hrest]; subst.
    cbn [map fst snd]. constructor; [| auto].
    cbn [fst snd] in *. split; [reflexivity |].
    unfold merged_value. destruct (dict_get k r); [auto |].
    apply same_shape_refl.
Qed.

(** X12. Merging the same incoming tree a second time, into the result of
    the first merge, changes nothing. *)
Theorem merge_again (i e : json) :
  wf i = true ->
  merge_recursive i (merge_recursive i e) = merge_recursive i e.
Proof.
  revert e.
  induction i as [| b | x | s | items IH | entries IH] using json_induction;
    intros e Hwf.
  - destruct e; reflexivity.
  - destruct e; reflexivity.
  - destruct e; reflexivity.
  - cbn [merge_recursive]. destruct (has_russian s) eqn:Hs.
    + reflexivity.
    + destruct e; reflexivity.
  - destruct e as [| | | | r |]; try (apply merge_same; exact Hwf).
    cbn [merge_recursive]. f_equal.
    pose proof (wf_arr_inv _ Hwf) as Hw. clear Hwf.
    revert r. induction items as [| v items IHitems]; intros r;
      [reflexivity |].
    inversion IH as [| ? ? IHv IHrest]; subst.
    inversion Hw as [| ? ? Hv Hrest]; subst.
    destruct r as [| y r]; cbn [merge_lists];
      fold (merge_lists merge_recursive).
    + rewrite (merge_same v Hv), (IHitems IHrest Hrest []). reflexivity.
    + rewrite (IHv y Hv), (IHitems IHrest Hrest r). reflexivity.
  - destruct e as [| | | | | r]; try (apply merge_same; exact Hwf).
    destruct (wf_obj_inv _ Hwf) as [Hd Hw].
    rewrite (merge_objects entries r Hd).
    rewrite (merge_objects entries _ Hd). f_equal.
    apply map_ext_in. intros [k v] Hin. cbn [fst snd]. f_equal.
    unfold merged_value at 1.
    rewrite (dict_get_map (merged_value r)), (dict_get_in entries k v Hd Hin).
    cbn [option_map]. rewrite Forall_forall in IH, Hw.
    pose proof (IH (k, v) Hin) as IHv. pose proof (Hw (k, v) Hin) as Hv.
    cbn [snd] in IHv, Hv. unfold merged_value.
    destruct (dict_get k r) as [x |]; [apply IHv; exact Hv |].
    apply merge_same. exact Hv.
Qed.

(** X13. An incoming tree in which every string holds a letter of the
    alphabet replaces the existing tree altogether. *)
Theorem translated_artifact_wins (i e : json) :
  wf i = true ->
  strings_all has_russian i = true ->
  merge_recursive i e = i.
Proof.
  revert e.
  induction i as [| b | x | s | items IH | entries IH] using json_induction;
    intros e Hwf Hall.
  - destruct e; reflexivity.
  - destruct e; reflexivity.
  - destruct e; reflexivity.
  - cbn [strings_all] in Hall. cbn [merge_recursive]. rewrite Hall.
    reflexivity.
  - destruct e as [| | | | r |]; try reflexivity.
    cbn [merge_recursive]. f_equal.
    pose proof (wf_arr_inv _ Hwf) as Hw. clear Hwf.
    cbn [strings_all] in Hall.
    pose proof (proj1 (forallb_forall _ _) Hall) as Ha. clear Hall.
    revert r. induction items as [| v items IHitems]; intros r;
      [reflexivity |].
    inversion IH as [| ? ? IHv IHrest]; subst.
    inversion Hw as [| ? ? Hv Hrest]; subst.
    assert (Hav : strings_all has_russian v = true)
      by (apply Ha; left; reflexivity).
    assert (Harest : forall x, In x items -> strings_all has_russian x = true)
      by (intros x Hx; apply Ha; right; exact Hx).
    destruct r as [| y r]; cbn [merge_lists];
      fold (merge_lists merge_recursive).
    + rewrite (IHitems IHrest Hrest Harest []). reflexivity.
    + rewrite (IHv y Hv Hav), (IHitems IHrest Hrest Harest r). reflexivity.
  - destruct e as [| | | | | r]; try reflexivity.
    destruct (wf_obj_inv _ Hwf) as [Hd Hw].
    rewrite (merge_objects entries r Hd). f_equal.
    rewrite <- (map_id entries) at 2. apply map_ext_in.
    intros [k v] Hin. cbn [fst snd]. f_equal.
    cbn [strings_all] in Hall.
    pose proof (proj1 (forallb_forall _ _) Hall (k, v) Hin) as Hav.
    rewrite Forall_forall in IH, Hw.
    pose proof (IH (k, v) Hin) as IHv. pose proof (Hw (k, v) Hin) as Hv.
    cbn [snd] in IHv, Hv, Hav. unfold merged_value.
    destruct (dict_get k r) as [x |]; [apply IHv; assumption | reflexivity].
Qed.

Lemma same_shape_keys (d d' : dict) :
  Forall2 (fun kv kv' => fst kv = fst kv' /\ same_shape (snd kv) (snd kv'))
    d d' ->
  keys d = keys d'.
Proof.
  induction 1 as [| kv kv' d d' [Hk _] _ IH]; [reflexivity |].
  cbn [keys map]. fold (keys d) (keys d'). rewrite Hk, IH. reflexivity.
Qed.

(** X14. An incoming tree in which no string holds a letter of the alphabet
    leaves an existing tree of the same shape as it is: nothing that was
    translated by hand is overwritten. *)
Theorem untranslated_artifact_keeps_existing (i e : json) :
  wf i = true ->
  strings_all untranslated i = true ->
  same_shape i e ->
  merge_recursive i e = e.
Proof.
  revert e.
  induction i as [| b | x | s | items IH | entries IH] using json_induction;
    intros e Hwf Hall Hshape; inversion Hshape; subst; try reflexivity.
  - cbn [strings_all] in Hall. unfold untranslated in Hall.
    apply negb_true_iff in Hall. cbn [merge_recursive]. rewrite Hall.
    reflexivity.
  - cbn [merge_recursive]. f_equal.
    pose proof (wf_arr_inv _ Hwf) as Hw. clear Hwf Hshape.
    cbn [strings_all] in Hall.
    pose proof (proj1 (forallb_forall _ _) Hall) as Ha. clear Hall.
    match goal with H : Forall2 same_shape items _ |- _ => rename H into Hf end.
    induction Hf as [| v v' items l' Hv' Hf IHf]; [reflexivity |].
    inversion IH as [| ? ? IHv IHrest]; subst.
    inversion Hw as [| ? ? Hv Hrest]; subst.
    cbn [merge_lists]. fold (merge_lists merge_recursive).
    rewrite (IHv v' Hv (Ha v (or_introl eq_refl)) Hv').
    rewrite IHf; [reflexivity | exact IHrest | exact Hrest |].
    intros x Hx. apply Ha. right. exact Hx.
  - destruct (wf_obj_inv _ Hwf) as [Hd Hw].
    match goal with
    | H : Forall2 _ entries ?d |- _ => rename H into Hf; rename d into d'
    end.
    rewrite (merge_objects entries d' Hd). f_equal.
    assert (Hd' : distinct (keys d') = true)
      by (rewrite <- (same_shape_keys _ _ Hf); exact Hd).
    cbn [strings_all] in Hall.
    pose proof (proj1 (forallb_forall _ _) Hall) as Ha. clear Hall.
    rewrite Forall_forall in IH, Hw.
    assert (G : forall d2 d2',
               Forall2 (fun kv kv' => fst kv = fst kv'
                                      /\ same_shape (snd kv) (snd kv'))
                 d2 d2' ->
               incl d2 entries -> incl d2' d' ->
               map (fun kv => (fst kv, merged_value d' (fst kv) (snd kv))) d2
               = d2').
    { induction 1 as [| [k v] [k' v'] d2 d2' [Hk Hv'] _ IH2];
        intros Hin Hin'; [reflexivity |].
      cbn [fst snd] in Hk, Hv'. subst k'. cbn [map fst snd].
      assert (Hkv : In (k, v) entries) by (apply Hin; left; reflexivity).
      assert (Hkv' : In (k, v') d') by (apply Hin'; left; reflexivity).
      unfold merged_value at 1. rewrite (dict_get_in d' k v' Hd' Hkv').
      pose proof (IH (k, v) Hkv v' (Hw (k, v) Hkv) (Ha (k, v) Hkv) Hv') as E.
      cbn [snd] in E. rewrite E. f_equal. apply IH2.
      - intros z Hz. apply Hin. right. exact Hz.
      - intros z Hz. apply Hin'. right. exact Hz. }
    apply (G entries d' Hf); apply incl_refl.
Qed.

Lemma merge_lists_nil_r (a : list json) :
  merge_lists merge_recursive a [] = a.
Proof.
  induction a as [| x a IH]; [reflexivity |].
  cbn [merge_lists]. fold (merge_lists merge_recursive). rewrite IH.
  reflexivity.
Qed.

(** X15. Empty containers: against an empty existing mapping or sequence
    the incoming one is returned as it is, and an empty incoming mapping or
    sequence empties the result whatever the existing one holds. *)
Theorem merge_empty (a r : dict) (la lr : list json) :
  (distinct (keys a) = true -> merge_recursive (JObj a) (JObj []) = JObj a)
  /\ merge_recursive (JArr la) (JArr []) = JArr la
  /\ merge_recursive (JObj []) (JObj r) = JObj []
  /\ merge_recursive (JArr []) (JArr lr) = JArr [].
Proof.
  split; [| split; [| split]]; try reflexivity.
  - intros Hd. rewrite (merge_objects a [] Hd). f_equal.
    rewrite <- (map_id a) at 2. apply map_ext. intros [k v]. reflexivity.
  - cbn [merge_recursive]. rewrite merge_lists_nil_r. reflexivity.
Qed.

(** ** [fix_value] *)

Lemma normalize_untranslated (d : json) :
  strings_all untranslated d = true -> normalize d = d.
Proof.
  induction d as [| b | x | s | items IH | entries IH] using json_induction;
    intros Hall; try reflexivity.
  - cbn [strings_all] in Hall. unfold untranslated in Hall.
    apply negb_true_iff in Hall. cbn [normalize].
    unfold normalize_string. rewrite Hall. reflexivity.
  - cbn [normalize]. f_equal. rewrite <- (map_id items) at 2.
    apply map_ext_in. intros v Hv. rewrite Forall_forall in IH.
    apply IH; [exact Hv |]. cbn [strings_all] in Hall.
    exact (proj1 (forallb_forall _ _) Hall v Hv).
  - cbn [normalize]. f_equal. rewrite <- (map_id entries) at 2.
    apply map_ext_in. intros [k v] Hkv. cbn [fst snd].
    rewrite Forall_forall in IH. cbn [strings_all] in Hall.
    pose proof (IH (k, v) Hkv
                  (proj1 (forallb_forall _ _) Hall (k, v) Hkv)) as E.
    cbn [snd] in E. rewrite E. reflexivity.
Qed.

(** X16. A document in which no string holds a letter of the alphabet is
    returned as it is, so that [main] (line 175) leaves its file alone. *)
Theorem document_without_russian_unchanged (d : json) :
  wf d = true ->
  strings_all untranslated d = true ->
  fix_value d = Returns d.
Proof.
  intros Hwf Hall. rewrite (fix_value_normalize d Hwf).
  rewrite (normalize_untranslated d Hall). reflexivity.
Qed.

End Scripts.

Arguments JNull {number}.
Arguments JBool {number} b.
Arguments JNum {number} x.
Arguments JStr {number} s.
Arguments JArr {number} items.
Arguments JObj {number} entries.
Arguments wf {number} v.
Arguments merge_recursive {number} artifact resource.
Arguments fix_value isalpha {number} obj.
Arguments same_keys {number}.
Arguments same_shape {number}.

(* ================================================================== *)
(** * Concrete runs

    The documents have integer leaves, and [str.isalpha] is only asked
    about ASCII characters. *)

(** {"a": "Hello", "b": "Новый текст", "c": {"d": 1}} *)
Definition incoming_example : json Z :=
  JObj [([97]%N, JStr [72; 101; 108; 108; 111]%N);
        ([98]%N, JStr [1053; 1086; 1074; 1099; 1081; 32; 1090; 1077; 1082; 1089; 1090]%N);
        ([99]%N, JObj [([100]%N, JNum 1)])].

(** {"a": "old", "b": "старый текст", "c": {"d": 99}, "e": "stale"} *)
Definition existing_example : json Z :=
  JObj [([97]%N, JStr [111; 108; 100]%N);
        ([98]%N, JStr [1089; 1090; 1072; 1088; 1099; 1081; 32; 1090; 1077; 1082; 1089; 1090]%N);
        ([99]%N, JObj [([100]%N, JNum 99)]);
        ([101]%N, JStr [115; 116; 97; 108; 101]%N)].

(** {"k": "Изготовь Зарядник", "l": ["привет. мир", 1, null]} *)
Definition document_example : json Z :=
  JObj [([107]%N, JStr [1048; 1079; 1075; 1086; 1090; 1086; 1074; 1100; 32; 1047; 1072; 1088; 1103; 1076; 1085; 1080; 1082]%N);
        ([108]%N, JArr [JStr [1087; 1088; 1080; 1074; 1077; 1090; 46; 32; 1084; 1080; 1088]%N; JNum 1; JNull])].

Lemma merge_key_set_witness :
  wf incoming_example = true
  /\ merge_recursive incoming_example existing_example
     = JObj [([97]%N, JStr [111; 108; 100]%N);
             ([98]%N, JStr [1053; 1086; 1074; 1099; 1081; 32; 1090; 1077; 1082; 1089; 1090]%N);
             ([99]%N, JObj [([100]%N, JNum 1)])]
  /\ same_keys incoming_example
       (merge_recursive incoming_example existing_example).
Proof.
  split; [reflexivity |]. split; [reflexivity |].
  exact (proj2 (proj2 (merge_key_set Z incoming_example existing_example
                         eq_refl))).
Defined.

Lemma merge_string_leaf_witness :
  (* "Новый текст" over "старый текст" *)
  merge_recursive (JStr [1053; 1086; 1074; 1099; 1081; 32; 1090; 1077; 1082; 1089; 1090]%N) (JStr [1089; 1090; 1072; 1088; 1099; 1081; 32; 1090; 1077; 1082; 1089; 1090]%N : json Z) = JStr [1053; 1086; 1074; 1099; 1081; 32; 1090; 1077; 1082; 1089; 1090]%N
  (* "Hello" over "old" *)
  /\ merge_recursive (JStr [72; 101; 108; 108; 111]%N) (JStr [111; 108; 100]%N : json Z) = JStr [111; 108; 100]%N
  (* "Hello" over 99 *)
  /\ merge_recursive (JStr [72; 101; 108; 108; 111]%N) (JNum 99 : json Z) = JStr [72; 101; 108; 108; 111]%N.
Proof.
  assert (Hno : ~ contains_letter [72; 101; 108; 108; 111]%N).
  { intros (c & Hin & Hc). cbn [In] in Hin.
    repeat (destruct Hin as [<- | Hin]; [discriminate Hc |]). exact Hin. }
  split; [| split].
  - apply (proj1 (merge_string_leaf Z [1053; 1086; 1074; 1099; 1081; 32; 1090; 1077; 1082; 1089; 1090]%N (JStr [1089; 1090; 1072; 1088; 1099; 1081; 32; 1090; 1077; 1082; 1089; 1090]%N))).
    exists 1053%N. split; [left; reflexivity | reflexivity].
  - apply (proj1 (proj2 (merge_string_leaf Z [72; 101; 108; 108; 111]%N (JStr [111; 108; 100]%N))) Hno).
    reflexivity.
  - apply (proj2 (proj2 (merge_string_leaf Z [72; 101; 108; 108; 111]%N (JNum 99))) Hno).
    discriminate.
Defined.

Lemma normalization_idempotent_witness :
  wf document_example = true
  /\ exists d', fix_value ascii_letter document_example = Returns d'
                /\ fix_value ascii_letter d' = Returns d'.
Proof.
  split; [reflexivity |].
  apply (normalization_idempotent ascii_letter Z document_example).
  reflexivity.
Defined.

(** "т. е" after its first letter: the dot ends a lone letter, no boundary. *)
Lemma sentence_boundary_look_back_witness :
  step ascii_letter [1090; 46; 32; 1077]%N (mkState 1 false [1058]%N)
  = Returns (mkState 2 false [1058; 46]%N).
Proof.
  refine (proj1 (proj2 (sentence_boundary_look_back ascii_letter
                          [1090; 46; 32; 1077]%N (mkState 1 false [1058%N]))
                   _)
            46%N 32%N eq_refl eq_refl eq_refl eq_refl).
  cbn [pos]. lia.
Defined.

(** "Изготовь Зарядник" at the second capital. *)
Lemma uppercase_letter_rule_witness :
  step ascii_letter [1048; 1079; 1075; 1086; 1090; 1086; 1074; 1100; 32; 1047; 1072; 1088; 1103; 1076; 1085; 1080; 1082]%N (mkState 9 false [1048; 1079; 1075; 1086; 1090; 1086; 1074; 1100; 32]%N)
  = Returns (mkState 10 false [1048; 1079; 1075; 1086; 1090; 1086; 1074; 1100; 32; 1079]%N).
Proof.
  apply (proj1 (uppercase_letter_rule ascii_letter [1048; 1079; 1075; 1086; 1090; 1086; 1074; 1100; 32; 1047; 1072; 1088; 1103; 1076; 1085; 1080; 1082]%N
                  (mkState 9 false [1048; 1079; 1075; 1086; 1090; 1086; 1074; 1100; 32]%N))
           [1048; 1079; 1075; 1086; 1090; 1086; 1074; 1100; 32]%N 1047%N [1072; 1088; 1103; 1076; 1085; 1080; 1082]%N);
    reflexivity.
Defined.

(** "§rт. е" at its first character. *)
Lemma format_code_pair_witness :
  step ascii_letter [167; 114; 1090; 46; 32; 1077]%N initial
  = Returns (mkState 2 true [section_sign; 114%N]).
Proof.
  apply (format_code_pair ascii_letter [167; 114; 1090; 46; 32; 1077]%N initial 114%N);
    [cbn [pos initial]; lia | reflexivity ..].
Defined.

Lemma normalization_preserves_shape_witness :
  wf document_example = true
  /\ exists d', fix_value ascii_letter document_example = Returns d'
                /\ same_shape document_example d'.
Proof.
  split; [reflexivity |].
  apply (normalization_preserves_shape ascii_letter Z document_example).
  reflexivity.
Defined.

(** "а§": the marker ends the string. *)
Lemma fix_sentence_case_total_witness :
  (exists out, fix_sentence_case ascii_letter [1072; 167]%N
               = Returns (out ++ [section_sign]))
  /\ step ascii_letter [1072; 167]%N (mkState 1 false [1040%N])
     = Returns (mkState 2 false [1040%N; section_sign]).
Proof.
  destruct (proj2 (fix_sentence_case_total ascii_letter [1072; 167]%N)
              [1072%N] eq_refl) as [Hout Hstep].
  split; [exact Hout |].
  apply (Hstep (mkState 1 false [1040%N])); reflexivity.
Defined.

Lemma merge_with_itself_witness :
  wf existing_example = true
  /\ merge_recursive existing_example existing_example = existing_example.
Proof.
  split; [reflexivity |].
  apply (merge_with_itself Z existing_example). reflexivity.
Defined.

(** ** Where the wording of the specification and the code part *)

(** C4 as worded, with "whitespace" and "punctuation" in their everyday
    meaning, fails. In "(т. е" the lone letter follows a bracket, in
    "а\nт. е" it follows a newline: both times the code declares a sentence
    boundary after the dot, and the next letter comes out in uppercase. In
    "я §. а" the dot at index 3 is followed by a space and no letter stands
    before it, yet no boundary is declared: the dot is copied with the
    marker, the loop goes from index 2 to index 4 with the flag unset, and
    the last letter stays in lowercase. *)
Lemma sentence_boundary_counterexample :
  (run ascii_letter 2 [40; 1090; 46; 32; 1077]%N initial = Returns (mkState 2 false [40; 1058]%N)
   /\ ~ boundary_rule ascii_letter whitespace_or_punctuation [40; 1090; 46; 32; 1077]%N
          (mkState 2 false [40; 1058]%N)
   /\ fix_sentence_case ascii_letter [40; 1090; 46; 32; 1077]%N = Returns [40; 1058; 46; 32; 1045]%N)
  /\ (run ascii_letter 3 [1072; 10; 1090; 46; 32; 1077]%N initial = Returns (mkState 3 false [1040; 10; 1058]%N)
      /\ ~ boundary_rule ascii_letter whitespace_or_punctuation [1072; 10; 1090; 46; 32; 1077]%N
             (mkState 3 false [1040; 10; 1058]%N)
      /\ fix_sentence_case ascii_letter [1072; 10; 1090; 46; 32; 1077]%N = Returns [1040; 10; 1058; 46; 32; 1045]%N)
  /\ (getitem [1103; 32; 167; 46; 32; 1072]%N 3 = Returns 46%N
      /\ getitem [1103; 32; 167; 46; 32; 1072]%N 4 = Returns 32%N
      /\ run ascii_letter 3 [1103; 32; 167; 46; 32; 1072]%N initial
         = Returns (mkState 4 false [1071; 32; 167; 46]%N)
      /\ ~ boundary_declared ascii_letter [1103; 32; 167; 46; 32; 1072]%N 3
      /\ fix_sentence_case ascii_letter [1103; 32; 167; 46; 32; 1072]%N
         = Returns [1071; 32; 167; 46; 32; 1072]%N).
Proof.
  split; [| split].
  - split; [reflexivity |]. split; [| reflexivity].
    intros H. specialize (H 46%N 32%N eq_refl eq_refl eq_refl eq_refl).
    vm_compute in H. discriminate H.
  - split; [reflexivity |]. split; [| reflexivity].
    intros H. specialize (H 46%N 32%N eq_refl eq_refl eq_refl eq_refl).
    vm_compute in H. discriminate H.
  - do 3 (split; [reflexivity |]). split; [| reflexivity].
    intros H.
    specialize (H 3%nat (mkState 4 false [1071; 32; 167; 46]%N)
                  eq_refl eq_refl).
    discriminate H.
Qed.

(** C5 as worded fails. In "а аБ" the capital is read away from a sentence
    start and its word holds a lowercase letter, before it: the code emits
    the capital unchanged. *)
Lemma uppercase_letter_counterexample :
  run ascii_letter 3 [1072; 32; 1072; 1041]%N initial = Returns (mkState 3 false [1040; 32; 1072]%N)
  /\ ~ case_rule ascii_letter lower_in_span [1072; 32; 1072; 1041]%N (mkState 3 false [1040; 32; 1072]%N)
  /\ fix_sentence_case ascii_letter [1072; 32; 1072; 1041]%N = Returns [1040; 32; 1072; 1041]%N.
Proof.
  split; [reflexivity |]. split; [| reflexivity].
  intros H.
  specialize (H [1072; 32; 1072]%N 1041%N [] eq_refl eq_refl eq_refl eq_refl).
  vm_compute in H. discriminate H.
Qed.

(** C6 as worded fails. With the pair "§r" in front, "т. е" comes out as
    "Т. Е" and not as "Т. е": the look-back sees the pair. With the pair
    "§а" behind it, the capital of "а М" is lowered: the look-ahead sees
    the pair. *)
Lemma format_code_pair_counterexample :
  ~ pair_inert ascii_letter [] 114%N [1090; 46; 32; 1077]%N
  /\ ~ pair_inert ascii_letter [1072; 32; 1052]%N 1072%N [].
Proof.
  split; intros (out & H1 & H2); vm_compute in H1; injection H1 as <-;
    vm_compute in H2; discriminate H2.
Qed.

(* ================================================================== *)
(** * Concrete runs of the further properties *)

(** {"b": "Новый текст", "l": ["Да"]} *)
Definition translated_example : json Z :=
  JObj [([98]%N, JStr [1053; 1086; 1074; 1099; 1081; 32; 1090; 1077; 1082; 1089; 1090]%N); ([108]%N, JArr [JStr [1044; 1072]%N])].

(** {"a": "Hello", "c": {"d": 1}} and {"a": "Привет", "c": {"d": 1}} *)
Definition untranslated_example : json Z :=
  JObj [([97]%N, JStr [72; 101; 108; 108; 111]%N); ([99]%N, JObj [([100]%N, JNum 1)])].

Definition hand_translated_example : json Z :=
  JObj [([97]%N, JStr [1055; 1088; 1080; 1074; 1077; 1090]%N); ([99]%N, JObj [([100]%N, JNum 1)])].

(** "Изготовь Зарядник": the space at index 8 is copied. *)
Lemma only_letter_case_changes_witness :
  exists out,
    fix_sentence_case ascii_letter [1048; 1079; 1075; 1086; 1090; 1086; 1074; 1100; 32; 1047; 1072; 1088; 1103; 1076; 1085; 1080; 1082]%N = Returns out
    /\ nth_error out 8 = Some 32%N.
Proof.
  destruct (only_letter_case_changes ascii_letter [1048; 1079; 1075; 1086; 1090; 1086; 1074; 1100; 32; 1047; 1072; 1088; 1103; 1076; 1085; 1080; 1082]%N)
    as (out & Hout & _ & Hcopy).
  exists out. split; [exact Hout |].
  apply (Hcopy 8%nat 32%N); reflexivity.
Defined.

(** "МЭ ГОТОВ" *)
Lemma text_without_lowercase_unchanged_witness :
  fix_sentence_case ascii_letter [1052; 1069; 32; 1043; 1054; 1058; 1054; 1042]%N = Returns [1052; 1069; 32; 1043; 1054; 1058; 1054; 1042]%N.
Proof.
  apply (proj1 (text_without_lowercase_unchanged ascii_letter [1052; 1069; 32; 1043; 1054; 1058; 1054; 1042]%N eq_refl)).
Defined.

(** "1) привет" *)
Lemma first_letter_capitalised_witness :
  exists out,
    fix_sentence_case ascii_letter ([49; 41; 32]%N ++ 1087%N :: [1088; 1080; 1074; 1077; 1090]%N)
    = Returns ([49; 41; 32]%N ++ 1055%N :: out).
Proof.
  apply (first_letter_capitalised ascii_letter [49; 41; 32]%N 1087%N [1088; 1080; 1074; 1077; 1090]%N);
    reflexivity.
Defined.

(** "Привет" newline "- мир" *)
Lemma letter_after_newline_witness :
  exists out_head out,
    length out_head = 6%nat
    /\ fix_sentence_case ascii_letter
         ([1055; 1088; 1080; 1074; 1077; 1090]%N ++ newline :: [45; 32]%N ++ 1084%N :: [1080; 1088]%N)
       = Returns (out_head ++ newline :: [45; 32]%N ++ 1052%N :: out).
Proof.
  apply (letter_after_newline ascii_letter [1055; 1088; 1080; 1074; 1077; 1090]%N [45; 32]%N 1084%N [1080; 1088]%N);
    reflexivity.
Defined.

(** "привет. мир" *)
Lemma letter_after_sentence_end_witness :
  exists out_head out,
    length out_head = 6%nat
    /\ fix_sentence_case ascii_letter
         ([1087; 1088; 1080; 1074]%N ++ 1077%N :: 1090%N :: 46%N :: 32%N :: [] ++ 1084%N :: [1080; 1088]%N)
       = Returns (out_head ++ 46%N :: 32%N :: [] ++ 1052%N :: out).
Proof.
  apply (letter_after_sentence_end ascii_letter
           [1087; 1088; 1080; 1074]%N 1077%N 1090%N 46%N 32%N [] 1084%N [1080; 1088]%N);
    try reflexivity.
  right. reflexivity.
Defined.

(** "т. е. так" *)
Lemma lowercase_after_lone_letter_witness :
  exists out,
    fix_sentence_case ascii_letter (1090%N :: 46%N :: 32%N :: 1077%N :: [46; 32; 1090; 1072; 1082]%N)
    = Returns (1058%N :: 46%N :: 32%N :: 1077%N :: out).
Proof.
  apply (lowercase_after_lone_letter ascii_letter
           1090%N 46%N 32%N 1077%N [46; 32; 1090; 1072; 1082]%N);
    reflexivity.
Defined.

(** "§rт" at its first character. *)
Lemma step_in_range_witness :
  exists st' new,
    step ascii_letter [167; 114; 1090]%N initial = Returns st'
    /\ (pos st' = pos initial + 1 \/ pos st' = pos initial + 2)
    /\ pos st' <= len [167; 114; 1090]%N
    /\ result st' = result initial ++ new
    /\ len new = pos st' - pos initial.
Proof.
  apply (step_in_range ascii_letter [167; 114; 1090]%N initial).
  unfold len. cbn [pos initial length]. lia.
Defined.

(** "я 3.14" at the dot. *)
Lemma punctuation_without_blank_witness :
  step ascii_letter [1103; 32; 51; 46; 49; 52]%N (mkState 3 false [1071; 32; 51]%N)
  = Returns (mkState 4 false ([1071; 32; 51]%N ++ [46%N])).
Proof.
  refine (punctuation_without_blank ascii_letter [1103; 32; 51; 46; 49; 52]%N
            (mkState 3 false [1071; 32; 51]%N) 46%N _ eq_refl eq_refl
            (or_intror (ex_intro _ 49%N (conj eq_refl eq_refl)))).
  cbn [pos]. lia.
Defined.

Lemma merge_changes_only_strings_witness :
  same_shape incoming_example
    (merge_recursive incoming_example existing_example).
Proof.
  apply (merge_changes_only_strings Z incoming_example existing_example).
  reflexivity.
Defined.

Lemma merge_again_witness :
  merge_recursive incoming_example
    (merge_recursive incoming_example existing_example)
  = merge_recursive incoming_example existing_example.
Proof.
  apply (merge_again Z incoming_example existing_example). reflexivity.
Defined.

Lemma translated_artifact_wins_witness :
  merge_recursive translated_example existing_example = translated_example.
Proof.
  apply (translated_artifact_wins Z translated_example existing_example);
    reflexivity.
Defined.

Lemma untranslated_artifact_keeps_existing_witness :
  merge_recursive untranslated_example hand_translated_example
  = hand_translated_example.
Proof.
  apply (untranslated_artifact_keeps_existing Z
           untranslated_example hand_translated_example);
    [reflexivity | reflexivity |].
  unfold untranslated_example, hand_translated_example.
  repeat (constructor; cbn [fst snd]).
Defined.

Lemma merge_empty_witness :
  merge_recursive (JObj [([97]%N, JStr [72; 101; 108; 108; 111]%N)]) (JObj [] : json Z)
  = JObj [([97]%N, JStr [72; 101; 108; 108; 111]%N)].
Proof.
  apply (proj1 (merge_empty Z [([97]%N, JStr [72; 101; 108; 108; 111]%N)] [] [] [])).
  reflexivity.
Defined.

Lemma document_without_russian_unchanged_witness :
  fix_value ascii_letter untranslated_example = Returns untranslated_example.
Proof.
  apply (document_without_russian_unchanged ascii_letter Z
           untranslated_example);
    reflexivity.
Defined.
